(** * String-Analyzer: the performance-ratio and anomaly-detection pipeline

    A shallow embedding of the data pipeline of [app.py] (ingestion with
    numeric coercion, nearest-timestamp alignment, theoretical power, energy
    aggregation over a date range, ratio table, top/bottom rankings and the
    peer-group detector), followed by the properties established about it.

    Numbers.  pandas stores every measure as a binary64 float.  The model
    keeps the special values of IEEE 754 that the pipeline relies on
    (NaN as the missing-value marker, the two infinities produced by a
    division by zero) and computes on finite values exactly, over the
    rationals: rounding and the sign of zero are not modelled.  The square
    root used by the standard deviation is a parameter of the development;
    a statement that depends on its value assumes that it is accurate to a
    given tolerance. *)

From Stdlib Require Import String.
From Stdlib Require Import ZArith QArith Qabs List Bool Lia Permutation Sorted.
From Stdlib Require Import Qfield Lqa.
From Stdlib Require Import Ascii DecimalString DecimalPos DecimalN.
Import ListNotations.

Local Open Scope Z_scope.

(* ------------------------------------------------------------------ *)
(** ** Floating-point values *)

Inductive float : Type :=
| Fin (q : Q)
| PInf
| NInf
| NaN.

Definition isna (x : float) : bool :=
  match x with NaN => true | _ => false end.

Definition notna (x : float) : bool := negb (isna x).

Definition of_Z (n : Z) : float := Fin (inject_Z n).

Definition fopp (x : float) : float :=
  match x with
  | Fin q => Fin (Qopp q)
  | PInf => NInf
  | NInf => PInf
  | NaN => NaN
  end.

Definition fadd (x y : float) : float :=
  match x, y with
  | NaN, _ | _, NaN => NaN
  | Fin a, Fin b => Fin (Qplus a b)
  | PInf, NInf | NInf, PInf => NaN
  | PInf, _ | _, PInf => PInf
  | NInf, _ | _, NInf => NInf
  end.

Definition fsub (x y : float) : float := fadd x (fopp y).

(** An infinity whose sign is that of [q]; [0 * inf] is NaN. *)
Definition inf_signe (q : Q) (pos : bool) : float :=
  match Qcompare q 0 with
  | Gt => if pos then PInf else NInf
  | Lt => if pos then NInf else PInf
  | Eq => NaN
  end.

Definition fmul (x y : float) : float :=
  match x, y with
  | NaN, _ | _, NaN => NaN
  | Fin a, Fin b => Fin (Qmult a b)
  | Fin a, PInf | PInf, Fin a => inf_signe a true
  | Fin a, NInf | NInf, Fin a => inf_signe a false
  | PInf, PInf | NInf, NInf => PInf
  | PInf, NInf | NInf, PInf => NInf
  end.

(** numpy division: a finite value divided by zero is an infinity of its
    sign, [0 / 0] is NaN, and nothing is raised. *)
Definition fdiv (x y : float) : float :=
  match x, y with
  | NaN, _ | _, NaN => NaN
  | Fin a, Fin b =>
      if Qeq_bool b 0 then inf_signe a true else Fin (Qdiv a b)
  | Fin _, PInf | Fin _, NInf => Fin 0
  | PInf, Fin b => match Qcompare b 0 with Lt => NInf | _ => PInf end
  | NInf, Fin b => match Qcompare b 0 with Lt => PInf | _ => NInf end
  | _, _ => NaN
  end.

Definition fabs (x : float) : float :=
  match x with
  | Fin q => Fin (Qabs q)
  | PInf | NInf => PInf
  | NaN => NaN
  end.

(** Comparison; [None] when an operand is NaN (unordered). *)
Definition fcompare (x y : float) : option comparison :=
  match x, y with
  | NaN, _ | _, NaN => None
  | Fin a, Fin b => Some (Qcompare a b)
  | NInf, NInf | PInf, PInf => Some Eq
  | NInf, _ | _, PInf => Some Lt
  | PInf, _ | _, NInf => Some Gt
  end.

Definition flt (x y : float) : bool :=
  match fcompare x y with Some Lt => true | _ => false end.

Definition fle (x y : float) : bool :=
  match fcompare x y with Some Lt | Some Eq => true | _ => false end.

Definition fge (x y : float) : bool := fle y x.

Definition feqb (x y : float) : bool :=
  match fcompare x y with Some Eq => true | _ => false end.

Definition fneb (x y : float) : bool := negb (feqb x y).

(** Equality of values: the same special value, or equal rationals. *)
Definition float_eq (x y : float) : Prop :=
  match x, y with
  | Fin a, Fin b => Qeq a b
  | PInf, PInf | NInf, NInf | NaN, NaN => True
  | _, _ => False
  end.

(** The square root on floats, from a square root on finite values. *)
Definition fsqrt (racine : Q -> Q) (x : float) : float :=
  match x with
  | Fin q => match Qcompare q 0 with Lt => NaN | _ => Fin (racine q) end
  | PInf => PInf
  | NInf | NaN => NaN
  end.

(* ------------------------------------------------------------------ *)
(** ** Python exceptions *)

Inductive exn : Type :=
| ValueError
| IndexError
| OverflowError.

Inductive result (A : Type) : Type :=
| Ok (a : A)
| Raise (e : exn).

Arguments Ok {A} a.
Arguments Raise {A} e.

Definition bind {A B : Type} (m : result A) (k : A -> result B) : result B :=
  match m with
  | Ok a => k a
  | Raise e => Raise e
  end.

Notation "x <- m ;; k" := (bind m (fun x => k))
  (at level 61, m at next level, right associativity).

(** [int(x)]: truncation toward zero; NaN and the infinities raise. *)
Definition py_int (x : float) : result Z :=
  match x with
  | Fin q => Ok (Z.quot (Qnum q) (Zpos (Qden q)))
  | PInf | NInf => Raise OverflowError
  | NaN => Raise ValueError
  end.

(* ------------------------------------------------------------------ *)
(** ** pandas reductions (skipna=True, the default)

    [Series.sum], [Series.mean] and [Series.std] work on a copy of the
    values in which the missing entries are overwritten with 0, and divide
    by the number of entries that are present. *)

Definition masquer (x : float) : float := if isna x then Fin 0 else x.

Definition somme (l : list float) : float := fold_left fadd l (Fin 0).

Definition compter (l : list float) : nat := length (filter notna l).

Definition of_nat (n : nat) : float := of_Z (Z.of_nat n).

Definition nansum (l : list float) : float := somme (map masquer l).

Definition nanmean (l : list float) : float :=
  match compter l with
  | O => NaN
  | S _ as count => fdiv (nansum l) (of_nat count)
  end.

Definition carre (x : float) : float := fmul x x.

Section EcartType.

(** The square root on finite values (see the header). *)
Variable racine : Q -> Q.

(** [ddof = 1]: with at most one value present the count and the divisor
    are set to NaN, and so is the result. *)
Definition nanvar (l : list float) : float :=
  let count := compter l in
  if (count <=? 1)%nat then NaN
  else
    let avg := fdiv (nansum l) (of_nat count) in
    let sqr := map (fun x => if isna x then Fin 0
                             else carre (fsub avg (masquer x))) l in
    fdiv (somme sqr) (of_nat (count - 1)).

Definition nanstd (l : list float) : float := fsqrt racine (nanvar l).

End EcartType.

(* ------------------------------------------------------------------ *)
(** ** Sorting

    [argsort] is the insertion sort numpy runs on short arrays: it is
    stable.  [nargsort] is pandas' wrapper: missing keys are set aside and
    appended at the end ([na_position="last"]), and a descending sort
    reverses the input and the output of an ascending one. *)

Section Tri.

Context {A K : Type}.
Variable cle : A -> K.
Variable ltk : K -> K -> bool.

Fixpoint inserer (x : A) (l : list A) : list A :=
  match l with
  | [] => [x]
  | y :: l' =>
      if ltk (cle y) (cle x) then y :: inserer x l' else x :: y :: l'
  end.

Definition argsort (l : list A) : list A := fold_right inserer [] l.

Variable isnull : K -> bool.

Definition nargsort (ascending : bool) (l : list A) : list A :=
  let non_nans := filter (fun a => negb (isnull (cle a))) l in
  let nans := filter (fun a => isnull (cle a)) l in
  (if ascending then argsort non_nans
   else rev (argsort (rev non_nans))) ++ nans.

End Tri.

(* ------------------------------------------------------------------ *)
(** ** Ingestion ([traiter_fichier_onduleur], [traiter_fichier_carac],
       [traiter_fichier_irradiance]) *)

(** A cell as read from the file: already a number, or text. *)
Inductive cell : Type :=
| CellNum (x : float)
| CellTxt (s : string).

(** Timestamps in seconds; [None] is NaT. *)
Definition timestamp : Type := option Z.

Definition date_of (t : Z) : Z := t / 86400.

Record ligne_brute : Type := {
  b_time : string;
  b_strings : list cell;
  b_total : cell
}.

Record ligne_puissance : Type := {
  p_time : timestamp;
  p_strings : list float;
  p_total : float
}.

Record ligne_carac : Type := {
  c_string : Z;
  c_puissance_unitaire : float;
  c_nombre_pv : float
}.

(** A row of the characteristics frame as [traiter_fichier_carac] returns
    it: the three columns are coerced to numbers, the string number as
    well, and any of them may be missing, infinite or fractional.
    [ligne_carac] above is such a row once its string number is known to be
    the integer [c_string]. *)
Record ligne_carac_lue : Type := {
  l_string : float;
  l_puissance_unitaire : float;
  l_nombre_pv : float
}.

Record ligne_irradiance : Type := {
  i_time : timestamp;
  i_irradiance : float
}.

Definition isnat (t : timestamp) : bool :=
  match t with None => true | Some _ => false end.

Definition lt_time (a b : timestamp) : bool :=
  match a, b with
  | Some x, Some y => x <? y
  | _, _ => false
  end.

Section Ingestion.

(** The parsers behind [pd.to_numeric] and [pd.to_datetime]. *)
Variable lire_nombre : string -> option Q.
Variable lire_date : string -> option Z.

(** [pd.to_numeric(..., errors="coerce")] on one cell. *)
Definition to_numeric (c : cell) : float :=
  match c with
  | CellNum x => x
  | CellTxt s =>
      match lire_nombre s with
      | Some q => Fin q
      | None => NaN
      end
  end.

(** [pd.to_datetime(..., errors="coerce")] on one cell. *)
Definition to_datetime (s : string) : timestamp := lire_date s.

Definition convertir_ligne (b : ligne_brute) : ligne_puissance :=
  {| p_time := to_datetime (b_time b);
     p_strings := map to_numeric (b_strings b);
     p_total := to_numeric (b_total b) |}.

Definition traiter_fichier_onduleur (df : list ligne_brute)
  : list ligne_puissance :=
  nargsort p_time lt_time isnat true (map convertir_ligne df).

(** On a file of three columns (the renaming raises on any other width).
    [downcast="integer"] changes the dtype of a column, not its values. *)
Definition traiter_fichier_carac (df : list (cell * cell * cell))
  : list ligne_carac_lue :=
  map (fun r => {| l_string := to_numeric (fst (fst r));
                   l_puissance_unitaire := to_numeric (snd (fst r));
                   l_nombre_pv := to_numeric (snd r) |}) df.

Definition traiter_fichier_irradiance (df : list (string * cell))
  : list ligne_irradiance :=
  nargsort i_time lt_time isnat true
    (map (fun r => {| i_time := to_datetime (fst r);
                      i_irradiance := to_numeric (snd r) |}) df).

End Ingestion.

(* ------------------------------------------------------------------ *)
(** ** Nearest-timestamp alignment ([pd.merge_asof], direction="nearest")

    Both key columns must be sorted, else pandas raises.  For a left key
    the backward candidate is the last right row whose key is at most the
    left key, the forward candidate the first right row whose key is at
    least the left key; the nearer of the two is kept, the backward one on
    a tie.  A left row without candidate gets a missing irradiance. *)

Fixpoint est_trie (l : list Z) : bool :=
  match l with
  | a :: (b :: _) as t => (a <=? b) && est_trie t
  | _ => true
  end.

Fixpoint chercher_arriere (x : Z) (right : list (Z * float))
  : option (Z * float) :=
  match right with
  | [] => None
  | r :: rest =>
      if fst r <=? x then
        match chercher_arriere x rest with
        | Some r' => Some r'
        | None => Some r
        end
      else None
  end.

Definition chercher_avant (x : Z) (right : list (Z * float))
  : option (Z * float) :=
  find (fun r => x <=? fst r) right.

Definition plus_proche (x : Z) (right : list (Z * float)) : float :=
  match chercher_arriere x right, chercher_avant x right with
  | Some rb, Some rf =>
      if x - fst rb <=? fst rf - x then snd rb else snd rf
  | Some rb, None => snd rb
  | None, Some rf => snd rf
  | None, None => NaN
  end.

Definition merge_asof (left : list Z) (right : list (Z * float))
  : result (list float) :=
  if est_trie left && est_trie (map fst right)
  then Ok (map (fun x => plus_proche x right) left)
  else Raise ValueError.

(* ------------------------------------------------------------------ *)
(** ** Theoretical power (the loop over [df_carac.iterrows()])

    A frame of named columns; the name [i] stands for the label
    ["string i"].  Assigning to an existing name replaces that column,
    assigning to a new name appends one. *)

Definition colonnes : Type := list (Z * list float).

Fixpoint affecter (name : Z) (col : list float) (df : colonnes) : colonnes :=
  match df with
  | [] => [(name, col)]
  | (n, c) :: rest =>
      if n =? name then (name, col) :: rest
      else (n, c) :: affecter name col rest
  end.

Fixpoint colonne (name : Z) (df : colonnes) : option (list float) :=
  match df with
  | [] => None
  | (n, c) :: rest => if n =? name then Some c else colonne name rest
  end.

Definition coefficient : float := Fin (8 # 10).

Definition puissance_theorique (g : float) (n_pv : Z) (unitaire : float)
  : float :=
  fmul (fmul (fmul g (of_Z n_pv)) unitaire) coefficient.

Fixpoint puissances_theoriques (irradiance : list float)
  (df_carac : list ligne_carac) (df : colonnes) : result colonnes :=
  match df_carac with
  | [] => Ok df
  | row :: rest =>
      let string_name := c_string row in
      let unitaire := c_puissance_unitaire row in
      n_pv <- py_int (c_nombre_pv row) ;;
      puissances_theoriques irradiance rest
        (affecter string_name
           (map (fun g => puissance_theorique g n_pv unitaire) irradiance)
           df)
  end.

(** The same loop on the frame as [traiter_fichier_carac] returns it.  The
    string number is a float too: [int(row['string'])] raises on a number
    that is missing or infinite and truncates a fractional one, before the
    panel count is converted.  On rows whose string numbers are integers
    this is [puissances_theoriques]. *)
Fixpoint puissances_theoriques_iterrows (irradiance : list float)
  (df_carac : list ligne_carac_lue) (df : colonnes) : result colonnes :=
  match df_carac with
  | [] => Ok df
  | row :: rest =>
      string_name <- py_int (l_string row) ;;
      let unitaire := l_puissance_unitaire row in
      n_pv <- py_int (l_nombre_pv row) ;;
      puissances_theoriques_iterrows irradiance rest
        (affecter string_name
           (map (fun g => puissance_theorique g n_pv unitaire) irradiance)
           df)
  end.

(* ------------------------------------------------------------------ *)
(** ** Date-range filter and energy per string *)

Definition dans_periode (date_debut date_fin : Z) (t : timestamp) : bool :=
  match t with
  | Some t => (date_debut <=? date_of t) && (date_of t <=? date_fin)
  | None => false
  end.

Definition filtrer_periode (date_debut date_fin : Z)
  (df : list ligne_puissance) : list ligne_puissance :=
  filter (fun r => dans_periode date_debut date_fin (p_time r)) df.

(** W to kW on the string columns. *)
Definition en_kW (df : list ligne_puissance) : list ligne_puissance :=
  map (fun r => {| p_time := p_time r;
                   p_strings := map (fun x => fdiv x (Fin 1000)) (p_strings r);
                   p_total := p_total r |}) df.

Definition dix_minutes : float := Fin (10 # 60).

(** The column of the string at position [j] (label "string j+1"). *)
Definition colonne_string (j : nat) (df : list ligne_puissance) : list float :=
  map (fun r => nth j (p_strings r) NaN) df.

Definition energie_string (j : nat) (df : list ligne_puissance) : float :=
  nansum (map (fun x => fmul x dix_minutes) (colonne_string j df)).

Definition energie_totale (nb_strings : nat) (df : list ligne_puissance)
  : list float :=
  map (fun j => energie_string j df) (seq 0 nb_strings).

(** The energy of string [j] over the inclusive range of dates. *)
Definition energie_periode (df_puissance : list ligne_puissance)
  (j : nat) (date_debut date_fin : Z) : float :=
  energie_string j (filtrer_periode date_debut date_fin (en_kW df_puissance)).

(* ------------------------------------------------------------------ *)
(** ** Ratio table ([df_resultats]) and rankings *)

Record ligne_resultat : Type := {
  r_string : Z;
  r_energie : float;
  r_puissance_installee : float;
  r_ratio : float
}.

Definition puissance_installee (c : ligne_carac) : float :=
  fmul (c_puissance_unitaire c) (c_nombre_pv c).

Definition ligne (string : Z) (energie capacite : float) : ligne_resultat :=
  {| r_string := string;
     r_energie := energie;
     r_puissance_installee := capacite;
     r_ratio := fdiv energie capacite |}.

(** The left join on ["string"]: one row per matching characteristics row,
    and a row with a missing capacity when there is none. *)
Definition merge_left (string : Z) (energie : float)
  (df_carac : list ligne_carac) : list ligne_resultat :=
  match filter (fun c => c_string c =? string) df_carac with
  | [] => [ligne string energie NaN]
  | cs => map (fun c => ligne string energie (puissance_installee c)) cs
  end.

Fixpoint numeroter (i : Z) (l : list float) : list (Z * float) :=
  match l with
  | [] => []
  | e :: l' => (i, e) :: numeroter (i + 1) l'
  end.

Definition df_resultats (energies : list float) (df_carac : list ligne_carac)
  : list ligne_resultat :=
  flat_map (fun ie => merge_left (fst ie) (snd ie) df_carac)
           (numeroter 1 energies).

Definition sort_values (ascending : bool) (df : list ligne_resultat)
  : list ligne_resultat :=
  nargsort r_ratio flt isna ascending df.

Definition head {A : Type} (n : nat) (l : list A) : list A := firstn n l.

Definition top3 (df : list ligne_resultat) : list ligne_resultat :=
  let df_trie_desc := sort_values false df in
  let n_top := Nat.min 3 (List.length df_trie_desc) in
  head n_top df_trie_desc.

Definition flop3 (df : list ligne_resultat) : list ligne_resultat :=
  let df_trie_asc := sort_values true df in
  let n_flop := Nat.min 3 (List.length df_trie_asc) in
  head n_flop df_trie_asc.

(* ------------------------------------------------------------------ *)
(** ** Peer-group detector (the loop over [strings_sous_moyenne]) *)

Inductive message : Type :=
| Anormal
| Acceptable
| PasDeComparaison.

(** What the name [ecart_pct] is bound to: a number, or the text put in
    its place when there is nothing to compare with. *)
Inductive py_val : Type :=
| PyFloat (x : float)
| PyStr (s : string).

(** The text of a number printed with two decimals, kept symbolic. *)
Inductive texte : Type :=
| Fmt2f (x : float).

(** [f"{v:.2f}"]: the format code [f] is refused on text. *)
Definition format_2f (v : py_val) : result texte :=
  match v with
  | PyFloat x => Ok (Fmt2f x)
  | PyStr _ => Raise ValueError
  end.

Record alerte : Type := {
  a_string : Z;
  a_ecart : texte;
  a_message : message
}.

Definition iloc0 {A : Type} (l : list A) : result A :=
  match l with
  | [] => Raise IndexError
  | a :: _ => Ok a
  end.

Definition k : float := Fin (15 # 10).

Definition moyenne_globale (df : list ligne_resultat) : float :=
  nanmean (map r_ratio df).

Definition strings_sous_moyenne (df : list ligne_resultat)
  : list ligne_resultat :=
  filter (fun r => flt (r_ratio r) (moyenne_globale df)) df.

Definition strings_comparables (df_carac : list ligne_carac)
  (string_test : Z) (nb_pv_test pu_test : float) : list Z :=
  map c_string
    (filter (fun c => negb (c_string c =? string_test)
                      && feqb (c_nombre_pv c) nb_pv_test
                      && feqb (c_puissance_unitaire c) pu_test) df_carac).

Definition isin (comparables : list Z) (r : ligne_resultat) : bool :=
  existsb (fun i => r_string r =? i) comparables.

Definition ratios_comparables (df : list ligne_resultat)
  (comparables : list Z) : list float :=
  match comparables with
  | [] => []
  | _ => map r_ratio (filter (isin comparables) df)
  end.

Definition empty {A : Type} (l : list A) : bool :=
  match l with [] => true | _ => false end.

Section Detecteur.

Variable racine : Q -> Q.

Definition seuil_alerte (ratios : list float) : float :=
  let moyenne := nanmean ratios in
  let ecart_type := nanstd racine ratios in
  fsub moyenne (fmul k ecart_type).

Definition ecart_pct (ratios : list float) (ratio_test : float) : float :=
  let moyenne := nanmean ratios in
  fmul (fdiv (fabs (fsub moyenne ratio_test)) moyenne) (Fin 100).

(** The peers' ratios of a row, as the loop body computes them. *)
Definition pairs (df_carac : list ligne_carac) (df : list ligne_resultat)
  (row : ligne_resultat) : result (list float) :=
  let string_test := r_string row in
  carac_test <- iloc0 (filter (fun c => c_string c =? string_test) df_carac) ;;
  let nb_pv_test := c_nombre_pv carac_test in
  let pu_test := c_puissance_unitaire carac_test in
  Ok (ratios_comparables df
        (strings_comparables df_carac string_test nb_pv_test pu_test)).

(** One turn of the loop: the row appended to [alertes]. *)
Definition analyser (df_carac : list ligne_carac)
  (df : list ligne_resultat) (row : ligne_resultat) : result alerte :=
  let string_test := r_string row in
  let ratio_test := r_ratio row in
  ratios <- pairs df_carac df row ;;
  let verdict :=
    if negb (empty ratios) then
      (if flt ratio_test (seuil_alerte ratios) then Anormal else Acceptable,
       PyFloat (ecart_pct ratios ratio_test))
    else
      (PasDeComparaison, PyStr "—")
  in
  ecart <- format_2f (snd verdict) ;;
  Ok {| a_string := string_test;
        a_ecart := ecart;
        a_message := fst verdict |}.

(** The loop: [alertes] grows row after row, and an exception leaves it
    as it was when the exception was raised. *)
Fixpoint boucle (df_carac : list ligne_carac) (df : list ligne_resultat)
  (rows : list ligne_resultat) (alertes : list alerte)
  : list alerte * option exn :=
  match rows with
  | [] => (alertes, None)
  | row :: rest =>
      match analyser df_carac df row with
      | Ok a => boucle df_carac df rest (alertes ++ [a])
      | Raise e => (alertes, Some e)
      end
  end.

Definition detecter (df_carac : list ligne_carac)
  (df : list ligne_resultat) : list alerte * option exn :=
  boucle df_carac df (strings_sous_moyenne df) [].

End Detecteur.

(* ------------------------------------------------------------------ *)
(** ** Vocabulary of the statements *)

(** In a sorted column [a] may stand before [b]: the key of [b] is not
    below that of [a]. *)
Definition pas_apres {A K : Type} (cle : A -> K) (ltk : K -> K -> bool)
  (a b : A) : Prop :=
  ltk (cle b) (cle a) = false.

(** In a descending ranking [a] may stand before [b]: the ratio of [b] is
    missing, or it is at most the ratio of [a]. *)
Definition devant_desc (a b : ligne_resultat) : Prop :=
  isna (r_ratio b) = true \/ fle (r_ratio b) (r_ratio a) = true.

(** In an ascending ranking [a] may stand before [b]: the ratio of [b] is
    missing, or it is at least the ratio of [a]. *)
Definition devant_asc (a b : ligne_resultat) : Prop :=
  isna (r_ratio b) = true \/ fle (r_ratio a) (r_ratio b) = true.

(** The values present in a column, and their mean. *)
Definition presents (l : list float) : list float := filter notna l.

Definition moyenne_presents (l : list float) : float :=
  match presents l with
  | [] => NaN
  | p => fdiv (somme p) (of_nat (List.length p))
  end.






(** Truncation toward zero. *)
Definition tronquer (q : Q) : Z := Z.quot (Qnum q) (Zpos (Qden q)).

Definition fini (x : float) : bool :=
  match x with Fin _ => true | _ => false end.

(** A row of the characteristics frame whose string number and panel count
    are finite numbers. *)
Definition ligne_finie (r : ligne_carac_lue) : Prop :=
  fini (l_string r) = true /\ fini (l_nombre_pv r) = true.

(* ------------------------------------------------------------------ *)
(** ** Sample inputs *)

Definition carac (string : Z) (unitaire nombre : Q) : ligne_carac :=
  {| c_string := string;
     c_puissance_unitaire := Fin unitaire;
     c_nombre_pv := Fin nombre |}.

(** Two strings in the power file and two rows in the characteristics
    file: string 1 has a unit power of zero, and the second row is numbered
    3, so that string 2 has no row. *)
Definition energies_deux : list float := [Fin 4; Fin 5].
Definition carac_nulle : list ligne_carac := [carac 1 0 12; carac 3 1 12].

(** Four strings with their characteristics, ratios 4, 4.2, 1 and 3. *)
Definition energies_quatre : list float := [Fin 4; Fin 4.2; Fin 1; Fin 3].
Definition carac_quatre : list ligne_carac :=
  [carac 1 1 1; carac 2 1 1; carac 3 1 1; carac 4 1 1].

Definition df_deux : list ligne_resultat :=
  df_resultats energies_deux carac_nulle.

Definition df_quatre : list ligne_resultat :=
  df_resultats energies_quatre carac_quatre.

Definition carac_lue (string unitaire nombre : Q) : ligne_carac_lue :=
  {| l_string := Fin string;
     l_puissance_unitaire := Fin unitaire;
     l_nombre_pv := Fin nombre |}.

(** String 1 with two and a half panels. *)
Definition carac_fraction : list ligne_carac_lue := [carac_lue 1 1 2.5].

(** String 1 listed twice, with one panel of unit power 1 and with three
    panels of unit power 2. *)
Definition carac_lue_doublon : list ligne_carac_lue :=
  [carac_lue 1 1 1; carac_lue 1 2 3].

(** String 2 without panel count. *)
Definition carac_lue_manquante : list ligne_carac_lue :=
  [carac_lue 1 1 1;
   {| l_string := Fin 2; l_puissance_unitaire := Fin 1; l_nombre_pv := NaN |}].

(** A string number that could not be read, between two rows that are
    complete. *)
Definition carac_lue_sans_numero : list ligne_carac_lue :=
  [carac_lue 1 1 1;
   {| l_string := NaN; l_puissance_unitaire := Fin 1; l_nombre_pv := Fin 12 |};
   carac_lue 3 1 1].

(** A square root for the samples: rounded down to six decimals. *)
Definition racine_approx (q : Q) : Q :=
  Z.sqrt (Qnum q * 10 ^ 12 / Zpos (Qden q)) # 10 ^ 6.

(** Strings 1 and 2 share a specification, strings 3 and 4 another one;
    ratios 4, 1, 4 and 4.2. *)
Definition energies_paires : list float := [Fin 4; Fin 1; Fin 8; Fin 8.4].
Definition carac_paires : list ligne_carac :=
  [carac 1 1 1; carac 2 1 1; carac 3 2 1; carac 4 2 1].

Definition df_paires : list ligne_resultat :=
  df_resultats energies_paires carac_paires.

(** Strings 1 and 2 share a specification, string 3 is alone with its own;
    ratios 4, 4.2 and 1. *)
Definition energies_trois : list float := [Fin 4; Fin 4.2; Fin 2].
Definition carac_trois : list ligne_carac :=
  [carac 1 1 1; carac 2 1 1; carac 3 2 1].

(** One string, one sample of 6000 W at midnight of day 0 and one of
    3000 W on day 1. *)
Definition puissance_deux_jours : list ligne_puissance :=
  [{| p_time := Some 0; p_strings := [Fin 6000]; p_total := Fin 6000 |};
   {| p_time := Some 86400; p_strings := [Fin 3000]; p_total := Fin 3000 |}].

(** A parser of dates for the samples: "a" is midnight of day 0, "b" is
    ten minutes later, and nothing else is a date. *)
Definition lire_date_exemple (s : string) : option Z :=
  if String.eqb s "a" then Some 0
  else if String.eqb s "b" then Some 600
  else None.

(** Two irradiance readings with the same timestamp. *)
Definition irradiance_doublon : list (Z * float) := [(0, Fin 1); (0, Fin 2)].

(** Three irradiance readings, ten minutes apart. *)
Definition irradiance_reguliere : list (Z * float) :=
  [(0, Fin 0.1); (600, NaN); (1200, Fin 0.3)].

(** Keys in strictly increasing order. *)
Fixpoint strictement_croissant (l : list Z) : bool :=
  match l with
  | a :: (b :: _) as t => (a <? b) && strictement_croissant t
  | _ => true
  end.

(* ------------------------------------------------------------------ *)
(** ** The aligned frame of the global study ([df_merged])

    Both frames go through the date filter; the power frame gives the left
    keys, the irradiance frame the right rows.  [pd.merge_asof] refuses
    two key columns that differ in dtype, and a key column that holds a
    missing timestamp. *)

(** The dtype [pd.to_datetime] gives a time column: naive ([None]), or
    aware of a time zone.  A timestamp is the wall-clock time of its
    column, so that its date is the one [.dt.date] returns. *)
Definition dtype_temps : Type := option string.

Definition meme_dtype (a b : dtype_temps) : bool :=
  match a, b with
  | None, None => true
  | Some x, Some y => String.eqb x y
  | _, _ => false
  end.

Definition filtrer_irradiance (date_debut date_fin : Z)
  (df : list ligne_irradiance) : list ligne_irradiance :=
  filter (fun r => dans_periode date_debut date_fin (i_time r)) df.

Definition valeur_temps (t : timestamp) : Z :=
  match t with Some z => z | None => 0 end.

(** [MergeError] is a [ValueError]. *)
Definition merge_asof_time (dtype_left dtype_right : dtype_temps)
  (left : list timestamp) (right : list ligne_irradiance)
  : result (list float) :=
  if negb (meme_dtype dtype_left dtype_right) then Raise ValueError
  else if existsb isnat left || existsb (fun r => isnat (i_time r)) right
  then Raise ValueError
  else merge_asof (map valeur_temps left)
         (map (fun r => (valeur_temps (i_time r), i_irradiance r)) right).

Definition df_merged (dtype_puissance dtype_irradiance : dtype_temps)
  (date_debut date_fin : Z)
  (df_puissance : list ligne_puissance)
  (df_irradiance : list ligne_irradiance) : result (list float) :=
  merge_asof_time dtype_puissance dtype_irradiance
    (map p_time (filtrer_periode date_debut date_fin df_puissance))
    (filtrer_irradiance date_debut date_fin df_irradiance).

(** Timestamps in a sorted column: non-decreasing, the missing ones last. *)
Definition ordre_temps (a b : timestamp) : Prop :=
  match a, b with
  | Some x, Some y => x <= y
  | _, None => True
  | None, Some _ => False
  end.


(** What the alignment owes a power row with key [x]: a missing value when
    there is no reading at all, else the value of a reading whose key is
    nearest to [x], taken at or before [x] when such a reading is as near
    as any. *)
Definition lecture_plus_proche (right : list (Z * float)) (x : Z) (v : float)
  : Prop :=
  match right with
  | [] => v = NaN
  | _ =>
      exists r, In r right /\ v = snd r /\
        (forall r', In r' right ->
                    Z.abs (x - fst r) <= Z.abs (x - fst r')) /\
        (forall r', In r' right ->
                    Z.abs (x - fst r') = Z.abs (x - fst r) ->
                    fst r' <= x -> fst r <= x)
  end.


(* ------------------------------------------------------------------ *)
(** ** Real power and energy in the global study *)

(** [df_puissance_filtré[colonnes_strings] / 1000]: every column but the
    time, the total included. *)
Definition puissances_reelles (df : list ligne_puissance)
  : list ligne_puissance :=
  map (fun r => {| p_time := p_time r;
                   p_strings := map (fun x => fdiv x (Fin 1000)) (p_strings r);
                   p_total := fdiv (p_total r) (Fin 1000) |}) df.

(** [puissances_reelles.sum(axis=0) * (10/60)] for the string at position
    [j]. *)
Definition energie_reelle (j : nat) (df_filtre : list ligne_puissance) : float :=
  fmul (nansum (colonne_string j (puissances_reelles df_filtre))) dix_minutes.

(** [puissances_reelles.mean(axis=0)] for the string at position [j]. *)
Definition puissance_reelle_moyenne (j : nat)
  (df_filtre : list ligne_puissance) : float :=
  nanmean (colonne_string j (puissances_reelles df_filtre)).

(* ------------------------------------------------------------------ *)
(** ** The ratio table of the comparison between inverters

    Here the date filter comes first and the conversion to kW second. *)

Definition energie_totale_comparaison (nb_strings : nat)
  (date_debut date_fin : Z) (df_puissance : list ligne_puissance)
  : list float :=
  energie_totale nb_strings
    (en_kW (filtrer_periode date_debut date_fin df_puissance)).

Definition energie_totale_onduleur (nb_strings : nat)
  (date_debut date_fin : Z) (df_puissance : list ligne_puissance)
  : list float :=
  energie_totale nb_strings
    (filtrer_periode date_debut date_fin (en_kW df_puissance)).


(** The frame left by the loop when string 1 is numbered twice, the second
    time with a unit power of 2 and 2.5 panels. *)
Definition carac_doublon : list ligne_carac := [carac 1 1 1; carac 1 2 2.5].
Definition df_doublon : colonnes :=
  [(1, [puissance_theorique (Fin 0.5) 2 (Fin 2)])].


(* ------------------------------------------------------------------ *)
(** ** Monthly evolution ([df_mensuel], [ratios_mensuels], [df_ratios]) *)

(** The group keys of [groupby]: each key once, in ascending order. *)
Fixpoint ajouter_cle (m : Z) (l : list Z) : list Z :=
  match l with
  | [] => [m]
  | x :: l' =>
      if m <? x then m :: l
      else if m =? x then l
      else x :: ajouter_cle m l'
  end.

Definition cles_groupes (cles : list Z) : list Z :=
  fold_right ajouter_cle [] cles.

Record ligne_mensuelle : Type := {
  m_year_month : Z;
  m_energie : float;
  m_ratio : float;
  m_string : Z
}.

(** [pd.concat] refuses an empty list of frames. *)
Definition pd_concat {A : Type} (frames : list (list A)) : result (list A) :=
  match frames with
  | [] => Raise ValueError
  | _ => Ok (concat frames)
  end.

Section Mensuel.

(** The month of a timestamp ([dt.to_period("M")]), as an ordinal; the
    calendar is left abstract. *)
Variable to_period_M : Z -> Z.

Definition year_month (r : ligne_puissance) : Z :=
  to_period_M (valeur_temps (p_time r)).

Definition groupe (m : Z) (df : list ligne_puissance) : list ligne_puissance :=
  filter (fun r => year_month r =? m) df.

(** [df_energie.groupby("year_month")[colonnes_strings].sum()]: a row per
    month, with the energy of each string over the month. *)
Definition df_mensuel (nb_strings : nat) (df : list ligne_puissance)
  : list (Z * list float) :=
  map (fun m => (m, energie_totale nb_strings (groupe m df)))
      (cles_groupes (map year_month df)).

(** One turn of the loop over the strings: nothing when the string has no
    characteristics row ([continue]), else its monthly rows, with the
    capacity of its first characteristics row. *)
Definition ratios_string (mensuel : list (Z * list float))
  (df_carac : list ligne_carac) (j : nat) : list (list ligne_mensuelle) :=
  let num_string := Z.of_nat (S j) in
  match filter (fun c => c_string c =? num_string) df_carac with
  | [] => []
  | c :: _ =>
      [map (fun row =>
              let energie := nth j (snd row) NaN in
              {| m_year_month := fst row;
                 m_energie := energie;
                 m_ratio := fdiv energie (puissance_installee c);
                 m_string := num_string |}) mensuel]
  end.

Definition ratios_mensuels (nb_strings : nat) (df : list ligne_puissance)
  (df_carac : list ligne_carac) : list (list ligne_mensuelle) :=
  flat_map (ratios_string (df_mensuel nb_strings df) df_carac)
           (seq 0 nb_strings).

Definition df_ratios (nb_strings : nat) (df : list ligne_puissance)
  (df_carac : list ligne_carac) : result (list ligne_mensuelle) :=
  pd_concat (ratios_mensuels nb_strings df df_carac).

End Mensuel.

(** Months of thirty days, for the samples. *)
Definition mois_trente_jours (t : Z) : Z := t / (30 * 86400).


(* ------------------------------------------------------------------ *)
(** ** Ordering of the string labels ([trier_strings_par_numero])

    Labels are ASCII texts.  [re.search(r"\d+", s)] returns the leftmost
    run of digits, as long as it goes; [int] gives its decimal value; a
    label without digit gets [float('inf')]. *)

Definition est_chiffre (c : Ascii.ascii) : bool :=
  (48 <=? Ascii.N_of_ascii c)%N && (Ascii.N_of_ascii c <=? 57)%N.

(** The digits at the head of [s]. *)
Fixpoint debut_chiffres (s : string) : string :=
  match s with
  | EmptyString => EmptyString
  | String c s' =>
      if est_chiffre c then String c (debut_chiffres s') else EmptyString
  end.

Fixpoint re_search_chiffres (s : string) : option string :=
  match s with
  | EmptyString => None
  | String c s' =>
      if est_chiffre c then Some (debut_chiffres s)
      else re_search_chiffres s'
  end.

(** [int(m)] for a run of digits [m]. *)
Definition int_chiffres (m : string) : N :=
  match DecimalString.NilEmpty.uint_of_string m with
  | Some d => N.of_uint d
  | None => 0%N
  end.

(** A sort key: an integer, or infinity. *)
Inductive cle_tri : Type :=
| Num (n : N)
| Infini.

Definition extract_num (s : string) : cle_tri :=
  match re_search_chiffres s with
  | Some m => Num (int_chiffres m)
  | None => Infini
  end.

Definition lt_cle (a b : cle_tri) : bool :=
  match a, b with
  | Num x, Num y => (x <? y)%N
  | Num _, Infini => true
  | Infini, _ => false
  end.

(** [sorted(liste_strings, key=extract_num)]: a stable sort. *)
Definition trier_strings_par_numero (liste_strings : list string)
  : list string :=
  argsort extract_num lt_cle liste_strings.

(** The label [f"string {i}"] of string [i]. *)
Definition label_string (i : N) : string :=
  String.append "string "
    (DecimalString.NilEmpty.string_of_uint (N.to_uint i)).


(* ------------------------------------------------------------------ *)
(** ** Reading a file ([lire_fichier])

    File names are texts of one-byte characters.  [os.path.splitext] is
    the POSIX one: the extension starts at the last dot of the last path
    component, unless that component has nothing but dots before it. *)

Fixpoint rfind_depuis (c : ascii) (l : list ascii) (i dernier : Z) : Z :=
  match l with
  | [] => dernier
  | x :: l' =>
      rfind_depuis c l' (i + 1) (if Ascii.eqb x c then i else dernier)
  end.

(** [p.rfind(c)]: the last index of [c], or -1. *)
Definition rfind (c : ascii) (l : list ascii) : Z := rfind_depuis c l 0 (-1).

(** [p[debut:fin]] for [0 <= debut]. *)
Definition tranche (debut fin : Z) (l : list ascii) : list ascii :=
  firstn (Z.to_nat (fin - debut)) (skipn (Z.to_nat debut) l).

Definition sep : ascii := "/"%char.
Definition extsep : ascii := "."%char.

Definition splitext (p : string) : string * string :=
  let l := list_ascii_of_string p in
  let sepIndex := rfind sep l in
  let dotIndex := rfind extsep l in
  if (sepIndex <? dotIndex)
     && existsb (fun c => negb (Ascii.eqb c extsep))
                (tranche (sepIndex + 1) dotIndex l)
  then (string_of_list_ascii (tranche 0 dotIndex l),
        string_of_list_ascii (skipn (Z.to_nat dotIndex) l))
  else (p, EmptyString).

Definition lower_ascii (c : ascii) : ascii :=
  if (65 <=? N_of_ascii c)%N && (N_of_ascii c <=? 90)%N
  then ascii_of_N (N_of_ascii c + 32)
  else c.

Fixpoint lower (s : string) : string :=
  match s with
  | EmptyString => EmptyString
  | String c s' => String (lower_ascii c) (lower s')
  end.

Section LireFichier.

(** An uploaded file, with its name; the two pandas readers. *)
Variables fichier table : Type.
Variable name : fichier -> string.
Variable read_excel : fichier -> result table.
Variable read_csv : fichier -> result table.

Definition lire_fichier (f : fichier) : result table :=
  let nom := name f in
  let extension := lower (snd (splitext nom)) in
  if String.eqb extension ".xls" || String.eqb extension ".xlsx"
  then read_excel f
  else if String.eqb extension ".csv"
  then read_csv f
  else Raise ValueError.

End LireFichier.

(** The last path component of a name. *)
Definition dernier_composant (s : string) : list ascii :=
  let l := list_ascii_of_string s in
  skipn (Z.to_nat (rfind sep l + 1)) l.


(* ------------------------------------------------------------------ *)
(** ** Validation of the uploaded files (the "Valider" button)

    The script binds [coherence_valide] in the last branch only, and reads
    it after the branches: a name that was never bound raises NameError. *)

Inductive affichage : Type :=
| OnduleursManquants
| IrradianceManquante
| CaracteristiquesManquantes
| Incoherence (i : nat) (nb_colonnes_utiles nb_lignes_carac : Z)
| ErreurLecture (i : nat) (e : exn)
| Succes.

Inductive issue : Type :=
| Termine
| NameError.

Definition est_none {A : Type} (o : option A) : bool :=
  match o with None => true | Some _ => false end.

(** [l[i]] on a Python list. *)
Definition indexer {A : Type} (l : list A) (i : nat) : result A :=
  match nth_error l i with
  | Some a => Ok a
  | None => Raise IndexError
  end.

Section Validation.

Variables fichier table : Type.
(** [lire_fichier], with the readers it calls. *)
Variable lire : fichier -> result table.
(** [len(df.columns)] and [len(df)]. *)
Variable nb_colonnes : table -> nat.
Variable nb_lignes : table -> nat.

(** [lire_fichier(None)]: the name is the text "None", without extension. *)
Definition lire_option (f : option fichier) : result table :=
  match f with
  | Some f => lire f
  | None => Raise ValueError
  end.

(** The body of the loop for inverter [i]: what is displayed, and whether
    [coherence_valide] is set to False. *)
Definition verifier_onduleur (onduleurs caracteristiques : list (option fichier))
  (i : nat) : list affichage * bool :=
  match (f_onduleur <- indexer onduleurs i ;;
         df_onduleur <- lire_option f_onduleur ;;
         f_carac <- indexer caracteristiques i ;;
         df_carac <- lire_option f_carac ;;
         Ok (df_onduleur, df_carac)) with
  | Ok dfs =>
      let nb_colonnes_utiles := Z.of_nat (nb_colonnes (fst dfs)) - 2 in
      let nb_lignes_carac := Z.of_nat (nb_lignes (snd dfs)) in
      if nb_colonnes_utiles =? nb_lignes_carac then ([], false)
      else ([Incoherence i nb_colonnes_utiles nb_lignes_carac], true)
  | Raise e => ([ErreurLecture i e], true)
  end.

Fixpoint boucle_coherence (onduleurs caracteristiques : list (option fichier))
  (indices : list nat) (coherence_valide : bool) : list affichage * bool :=
  match indices with
  | [] => ([], coherence_valide)
  | i :: reste =>
      let v := verifier_onduleur onduleurs caracteristiques i in
      let suite :=
        boucle_coherence onduleurs caracteristiques reste
          (if snd v then false else coherence_valide) in
      (fst v ++ fst suite, snd suite)
  end.

(** The branches: what is displayed, and the binding of
    [coherence_valide] they leave. *)
Definition branches (nb_onduleurs : nat)
  (onduleurs caracteristiques : list (option fichier))
  (irradiance : option fichier) : list affichage * option bool :=
  if existsb est_none onduleurs then ([OnduleursManquants], None)
  else if est_none irradiance then ([IrradianceManquante], None)
  else if existsb est_none caracteristiques
  then ([CaracteristiquesManquantes], None)
  else
    let b := boucle_coherence onduleurs caracteristiques
               (seq 0 nb_onduleurs) true in
    (fst b, Some (snd b)).

Definition valider (nb_onduleurs : nat)
  (onduleurs caracteristiques : list (option fichier))
  (irradiance : option fichier) : list affichage * issue :=
  let b := branches nb_onduleurs onduleurs caracteristiques irradiance in
  match snd b with
  | None => (fst b, NameError)
  | Some coherence_valide =>
      (fst b ++ (if coherence_valide then [Succes] else []), Termine)
  end.

(** Inverter [i] passes: both files are there, both are read, and the
    power file has two columns more than the characteristics have rows. *)
Definition onduleur_coherent (onduleurs caracteristiques : list (option fichier))
  (i : nat) : Prop :=
  exists f_o f_c df_o df_c,
    nth_error onduleurs i = Some (Some f_o) /\
    nth_error caracteristiques i = Some (Some f_c) /\
    lire f_o = Ok df_o /\ lire f_c = Ok df_c /\
    Z.of_nat (nb_colonnes df_o) - 2 = Z.of_nat (nb_lignes df_c).

End Validation.


(* ------------------------------------------------------------------ *)
(** ** The report ([generer_word])

    The document is the list of the blocks added to it, in order.  The
    name [table_flop] is bound when the ranking section is written; the
    alert section assigns to its alignment. *)

Inductive texte_doc : Type :=
| TOnduleur (onduleur : Z)
| TPeriode (date_debut date_fin : string)
| TTop3
| TBottom3
| TAucuneAlerte.

Inductive titre_section : Type :=
| SRatio
| SClassement
| SSuspects
| SEvolution.

Inductive cellule : Type :=
| CLabel (string : Z)
| CNombre (t : texte)
| CMessage (m : message).

Inductive bloc : Type :=
| BLogo (chemin : string)
| BTitre (site : string)
| BTexte (t : texte_doc)
| BHeading2 (t : titre_section)
| BImage (chemin : string)
| BParagraphe
| BTable (centre : bool) (colonnes : nat) (lignes : list (list cellule)).

Inductive exn_doc : Type :=
| UnboundLocalError
| FileNotFoundError.

Inductive rapport (A : Type) : Type :=
| Fait (a : A)
| Leve (e : exn_doc).

Arguments Fait {A} a.
Arguments Leve {A} e.

Definition puis {A B : Type} (m : rapport A) (k : A -> rapport B) : rapport B :=
  match m with
  | Fait a => k a
  | Leve e => Leve e
  end.

(** [table.alignment = CENTER] on the table at position [i]. *)
Fixpoint centrer (i : nat) (doc : list bloc) : list bloc :=
  match doc, i with
  | [], _ => []
  | BTable _ n lignes :: reste, O => BTable true n lignes :: reste
  | b :: reste, O => b :: reste
  | b :: reste, S i' => b :: centrer i' reste
  end.

Definition ligne_classement (r : ligne_resultat) : list cellule :=
  [CLabel (r_string r); CNombre (Fmt2f (r_ratio r))].

Definition ligne_alerte (a : alerte) : list cellule :=
  [CLabel (a_string a); CNombre (a_ecart a); CMessage (a_message a)].

Section Rapport.

(** Whether an image file can be opened. *)
Variable existe : string -> bool.

Definition add_picture (b : bloc) (chemin : string) (doc : list bloc)
  : rapport (list bloc) :=
  if existe chemin then Fait (doc ++ [b]) else Leve FileNotFoundError.

Definition section_logo (logo_path : option string) (doc : list bloc)
  : rapport (list bloc) :=
  match logo_path with
  | None | Some EmptyString => Fait doc
  | Some chemin => add_picture (BLogo chemin) chemin doc
  end.

Definition section_ratio (inclure_ratio : bool) (img_barres : string)
  (doc : list bloc) : rapport (list bloc) :=
  if inclure_ratio
  then add_picture (BImage img_barres) img_barres (doc ++ [BHeading2 SRatio])
  else Fait doc.

(** The ranking section: the document, and the position of [table_flop]
    when the name is bound. *)
Definition section_classement (inclure_classement : bool)
  (top3_df flop3_df : list ligne_resultat) (doc : list bloc)
  : list bloc * option nat :=
  if inclure_classement then
    let doc1 :=
      doc ++ [BHeading2 SClassement; BTexte TTop3;
              BTable true 2 (map ligne_classement top3_df);
              BParagraphe; BParagraphe; BParagraphe; BTexte TBottom3] in
    (doc1 ++ [BTable false 2 (map ligne_classement flop3_df)],
     Some (List.length doc1))
  else (doc, None).

Definition section_suspects (inclure_analyse_suspect : bool)
  (df_alertes : list alerte) (table_flop : option nat) (doc : list bloc)
  : rapport (list bloc) :=
  if inclure_analyse_suspect then
    let doc1 := doc ++ [BParagraphe; BHeading2 SSuspects] in
    if negb (empty df_alertes) then
      match table_flop with
      | None => Leve UnboundLocalError
      | Some i =>
          Fait (centrer i doc1 ++ [BTable false 3 (map ligne_alerte df_alertes)])
      end
    else Fait (doc1 ++ [BTexte TAucuneAlerte])
  else Fait doc.

Definition section_evolution (inclure_evolution : bool)
  (img_evolution : string) (doc : list bloc) : rapport (list bloc) :=
  if inclure_evolution
  then add_picture (BImage img_evolution) img_evolution
         (doc ++ [BParagraphe; BHeading2 SEvolution])
  else Fait doc.

Definition generer_word (site : string) (onduleur : Z)
  (date_debut date_fin img_barres : string)
  (top3_df flop3_df : list ligne_resultat) (df_alertes : list alerte)
  (img_evolution : string)
  (inclure_ratio inclure_classement inclure_analyse_suspect
     inclure_evolution : bool)
  (logo_path : option string) : rapport (list bloc) :=
  puis (section_logo logo_path []) (fun doc =>
  let doc := doc ++ [BTitre site; BTexte (TOnduleur onduleur);
                     BTexte (TPeriode date_debut date_fin)] in
  puis (section_ratio inclure_ratio img_barres doc) (fun doc =>
  let c := section_classement inclure_classement top3_df flop3_df doc in
  puis (section_suspects inclure_analyse_suspect df_alertes (snd c) (fst c))
       (fun doc =>
  section_evolution inclure_evolution img_evolution doc))).

End Rapport.

(** The titles of the sections of a document, in order. *)
Definition sections (doc : list bloc) : list titre_section :=
  flat_map (fun b => match b with BHeading2 t => [t] | _ => [] end) doc.


(* ================================================================== *)
(** * Properties *)

(* ------------------------------------------------------------------ *)
(** ** Values: equality, order *)

Lemma float_eq_refl (x : float) : float_eq x x.
Proof. destruct x; simpl; auto. reflexivity. Qed.

Lemma float_eq_sym (x y : float) : float_eq x y -> float_eq y x.
Proof. destruct x, y; simpl; auto. intros H; symmetry; exact H. Qed.

Lemma float_eq_trans (x y z : float) :
  float_eq x y -> float_eq y z -> float_eq x z.
Proof.
  destruct x, y, z; simpl; auto; try contradiction.
  intros H1 H2; rewrite H1; exact H2.
Qed.

#[global] Instance float_eq_equiv : Equivalence float_eq.
Proof.
  split.
  - exact float_eq_refl.
  - exact float_eq_sym.
  - exact float_eq_trans.
Qed.

#[global] Instance fadd_proper : Proper (float_eq ==> float_eq ==> float_eq) fadd.
Proof.
  intros x x' Hx y y' Hy.
  destruct x, x'; simpl in Hx; try contradiction;
    destruct y, y'; simpl in Hy; try contradiction; simpl; auto.
  rewrite Hx, Hy; reflexivity.
Qed.

Lemma fadd_comm (x y : float) : float_eq (fadd x y) (fadd y x).
Proof. destruct x, y; simpl; auto. apply Qplus_comm. Qed.

Lemma fadd_assoc (x y z : float) :
  float_eq (fadd (fadd x y) z) (fadd x (fadd y z)).
Proof.
  destruct x, y, z; simpl; auto. symmetry; apply Qplus_assoc.
Qed.

Lemma fadd_0_l (x : float) : float_eq (fadd (Fin 0) x) x.
Proof. destruct x; simpl; auto. apply Qplus_0_l. Qed.

Lemma fadd_0_r (x : float) : float_eq (fadd x (Fin 0)) x.
Proof. destruct x; simpl; auto. apply Qplus_0_r. Qed.

Lemma fdiv_nan_r (x : float) : fdiv x NaN = NaN.
Proof. destruct x; reflexivity. Qed.

Lemma flt_nan_l (x : float) : flt NaN x = false.
Proof. reflexivity. Qed.

Lemma flt_nan_r (x : float) : flt x NaN = false.
Proof. destruct x; reflexivity. Qed.

Lemma flt_notna (x y : float) : flt x y = true -> isna x = false /\ isna y = false.
Proof. destruct x, y; simpl; auto; discriminate. Qed.

Lemma fle_notna (x y : float) : fle x y = true -> isna x = false /\ isna y = false.
Proof. destruct x, y; simpl; auto; discriminate. Qed.

Lemma fle_flt_false (x y : float) : fle x y = true -> flt y x = false.
Proof.
  destruct x, y; unfold fle, flt; simpl; auto; try discriminate.
  rewrite <- (Qcompare_antisym q q0).
  destruct (Qcompare q q0); simpl; auto; discriminate.
Qed.

Lemma flt_false_fle (x y : float) :
  isna x = false -> isna y = false -> flt y x = false -> fle x y = true.
Proof.
  destruct x, y; unfold fle, flt; simpl; auto; try discriminate.
  rewrite <- (Qcompare_antisym q q0).
  destruct (Qcompare q q0); simpl; auto; discriminate.
Qed.

Lemma flt_asym (x y : float) : flt x y = true -> flt y x = false.
Proof.
  destruct x, y; unfold flt; simpl; auto; try discriminate.
  rewrite <- (Qcompare_antisym q q0).
  destruct (Qcompare q q0); simpl; auto; discriminate.
Qed.

Lemma fle_trans (x y z : float) :
  fle x y = true -> fle y z = true -> fle x z = true.
Proof.
  destruct x, y, z; unfold fle; simpl; auto; try discriminate.
  intros H1 H2.
  assert (L1 : (q <= q0)%Q).
  { apply Qle_alt. destruct (Qcompare q q0); discriminate. }
  assert (L2 : (q0 <= q1)%Q).
  { apply Qle_alt. destruct (Qcompare q0 q1); discriminate. }
  assert (L3 : (q <= q1)%Q) by (eapply Qle_trans; eauto).
  pose proof (proj1 (Qle_alt _ _) L3) as L4.
  destruct (Qcompare q q1); auto.
Qed.

Lemma fmul_proper_l (a b c : float) :
  float_eq a b -> float_eq (fmul a c) (fmul b c).
Proof.
  destruct a as [q| | |], b as [q'| | |]; simpl; try contradiction;
    intros H; try reflexivity.
  destruct c as [d| | |]; simpl; try reflexivity.
  - rewrite H; reflexivity.
  - unfold inf_signe. rewrite H. reflexivity.
  - unfold inf_signe. rewrite H. reflexivity.
Qed.

Lemma fmul_proper_r (a b c : float) :
  float_eq b c -> float_eq (fmul a b) (fmul a c).
Proof.
  destruct a as [q| | |], b as [q1| | |], c as [q2| | |]; simpl;
    try contradiction; intros H; try reflexivity;
    try (rewrite H; reflexivity);
    unfold inf_signe; rewrite H; reflexivity.
Qed.

(* ------------------------------------------------------------------ *)
(** ** Sorting: the output is a sorted permutation *)

Lemma filter_partition_perm {A : Type} (f : A -> bool) (l : list A) :
  Permutation (filter (fun a => negb (f a)) l ++ filter f l) l.
Proof.
  induction l as [|a l IH]; simpl; auto.
  destruct (f a); simpl.
  - apply Permutation_sym, Permutation_cons_app, Permutation_sym, IH.
  - constructor; exact IH.
Qed.

Lemma StronglySorted_impl {A : Type} (R S : A -> A -> Prop) (l : list A) :
  (forall a b, In a l -> In b l -> R a b -> S a b) ->
  StronglySorted R l -> StronglySorted S l.
Proof.
  induction l as [|a l IH]; intros H HS; constructor;
    inversion HS as [|? ? HS' HF]; subst.
  - apply IH; auto. intros; apply H; simpl; auto.
  - rewrite Forall_forall in *. intros b Hb. apply H; simpl; auto.
Qed.

Lemma StronglySorted_app {A : Type} (R : A -> A -> Prop) (l1 l2 : list A) :
  StronglySorted R l1 -> StronglySorted R l2 ->
  (forall a b, In a l1 -> In b l2 -> R a b) ->
  StronglySorted R (l1 ++ l2).
Proof.
  induction l1 as [|a l1 IH]; simpl; intros H1 H2 H; auto.
  inversion H1 as [|? ? H1' HF]; subst.
  constructor.
  - apply IH; auto.
  - apply Forall_app; split; auto.
    rewrite Forall_forall; intros b Hb; apply H; auto.
Qed.

Lemma StronglySorted_rev {A : Type} (R : A -> A -> Prop) (l : list A) :
  StronglySorted R l -> StronglySorted (fun a b => R b a) (rev l).
Proof.
  induction 1 as [|a l HS IH HF]; simpl.
  - constructor.
  - apply StronglySorted_app; auto.
    + repeat constructor.
    + intros x y Hx [<-|[]]. rewrite Forall_forall in HF.
      apply HF. apply in_rev; exact Hx.
Qed.

Lemma StronglySorted_app_inv {A : Type} (R : A -> A -> Prop) (l1 l2 : list A) :
  StronglySorted R (l1 ++ l2) ->
  StronglySorted R l1 /\ StronglySorted R l2 /\
  (forall a b, In a l1 -> In b l2 -> R a b).
Proof.
  induction l1 as [|a l1 IH]; simpl; intros H.
  - repeat split; auto. constructor. intros ? ? [].
  - inversion H as [|? ? H' HF]; subst.
    destruct (IH H') as (S1 & S2 & C).
    apply Forall_app in HF as [F1 F2].
    repeat split; auto.
    + constructor; auto.
    + intros x y [<-|Hx] Hy; auto.
      rewrite Forall_forall in F2; auto.
Qed.

Section TriProprietes.

Context {A K : Type}.
Variable cle : A -> K.
Variable ltk : K -> K -> bool.
Variable dom : K -> Prop.

Hypothesis ltk_asym : forall a b,
  dom a -> dom b -> ltk a b = true -> ltk b a = false.
Hypothesis ltk_negtrans : forall a b c,
  dom a -> dom b -> dom c ->
  ltk b a = false -> ltk c b = false -> ltk c a = false.

Lemma inserer_perm (x : A) (l : list A) :
  Permutation (inserer cle ltk x l) (x :: l).
Proof.
  induction l as [|y l IH]; simpl; auto.
  destruct (ltk (cle y) (cle x)); auto.
  rewrite IH. apply perm_swap.
Qed.

Lemma argsort_perm (l : list A) : Permutation (argsort cle ltk l) l.
Proof.
  induction l as [|x l IH]; simpl; auto.
  rewrite inserer_perm. constructor; exact IH.
Qed.

Lemma inserer_sorted (x : A) (l : list A) :
  dom (cle x) -> Forall (fun a => dom (cle a)) l ->
  StronglySorted (pas_apres cle ltk) l ->
  StronglySorted (pas_apres cle ltk) (inserer cle ltk x l).
Proof.
  intros Hx Hl HS. induction HS as [|y l HS IH HF]; simpl.
  - repeat constructor.
  - inversion Hl as [|? ? Hy Hl']; subst.
    destruct (ltk (cle y) (cle x)) eqn:E.
    + constructor; auto.
      rewrite Forall_forall in *. intros z Hz.
      apply (Permutation_in _ (inserer_perm x l)) in Hz.
      destruct Hz as [<-|Hz]; auto.
      unfold pas_apres. apply ltk_asym; auto.
    + constructor; [constructor; auto|].
      constructor; [exact E|].
      rewrite Forall_forall in *. intros z Hz.
      unfold pas_apres in *.
      apply (ltk_negtrans (cle x) (cle y) (cle z)); auto.
Qed.

Lemma argsort_sorted (l : list A) :
  Forall (fun a => dom (cle a)) l ->
  StronglySorted (pas_apres cle ltk) (argsort cle ltk l).
Proof.
  induction l as [|x l IH]; simpl; intros H.
  - constructor.
  - inversion H; subst. apply inserer_sorted; auto.
    eapply Permutation_Forall; [apply Permutation_sym, argsort_perm|]; auto.
Qed.

Variable isnull : K -> bool.

Lemma nargsort_perm (ascending : bool) (l : list A) :
  Permutation (nargsort cle ltk isnull ascending l) l.
Proof.
  unfold nargsort.
  eapply Permutation_trans;
    [|apply (filter_partition_perm (fun a => isnull (cle a)) l)].
  apply Permutation_app_tail.
  destruct ascending.
  - apply argsort_perm.
  - eapply Permutation_trans; [apply Permutation_sym, Permutation_rev|].
    eapply Permutation_trans; [apply argsort_perm|].
    apply Permutation_sym, Permutation_rev.
Qed.

End TriProprietes.

(* ------------------------------------------------------------------ *)
(** ** Rankings *)

Lemma flt_negtrans (a b c : float) :
  isna a = false -> isna b = false -> isna c = false ->
  flt b a = false -> flt c b = false -> flt c a = false.
Proof.
  intros Ha Hb Hc H1 H2.
  apply fle_flt_false.
  apply fle_trans with b; apply flt_false_fle; auto.
Qed.

Lemma ratios_presents_filter (df : list ligne_resultat) :
  Forall (fun a => isna (r_ratio a) = false)
         (filter (fun a => negb (isna (r_ratio a))) df).
Proof.
  rewrite Forall_forall. intros a Ha.
  apply filter_In in Ha as [_ Ha].
  destruct (isna (r_ratio a)); auto; discriminate.
Qed.

Lemma manquants_sorted (R : ligne_resultat -> ligne_resultat -> Prop)
  (l : list ligne_resultat) :
  (forall a b, isna (r_ratio b) = true -> R a b) ->
  Forall (fun a => isna (r_ratio a) = true) l -> StronglySorted R l.
Proof.
  intros HR. induction 1 as [|a l Ha Hl IH]; constructor; auto.
  rewrite Forall_forall in *. intros b Hb. apply HR; auto.
Qed.

Lemma manquants_filter (df : list ligne_resultat) :
  Forall (fun a => isna (r_ratio a) = true)
         (filter (fun a => isna (r_ratio a)) df).
Proof.
  rewrite Forall_forall. intros a Ha.
  apply filter_In in Ha as [_ Ha]; exact Ha.
Qed.

Lemma sort_values_perm (ascending : bool) (df : list ligne_resultat) :
  Permutation (sort_values ascending df) df.
Proof. apply nargsort_perm. Qed.

Lemma sort_values_asc_sorted (df : list ligne_resultat) :
  StronglySorted devant_asc (sort_values true df).
Proof.
  unfold sort_values, nargsort.
  set (non_nans := filter (fun a => negb (isna (r_ratio a))) df).
  assert (Hn : Forall (fun a => isna (r_ratio a) = false) non_nans)
    by apply ratios_presents_filter.
  assert (Hs : Forall (fun a => isna (r_ratio a) = false)
                      (argsort r_ratio flt non_nans)).
  { eapply Permutation_Forall; [apply Permutation_sym, argsort_perm|]; auto. }
  apply StronglySorted_app.
  - apply StronglySorted_impl with (R := pas_apres r_ratio flt).
    + intros a b Ha Hb Hab. right.
      rewrite Forall_forall in Hs.
      apply flt_false_fle; auto.
    + apply argsort_sorted with (dom := fun x => isna x = false); auto.
      * intros; apply flt_asym; auto.
      * intros a b c Ha Hb Hc H1 H2; apply (flt_negtrans a b c); auto.
  - apply manquants_sorted; [intros; left; auto | apply manquants_filter].
  - intros a b _ Hb. left.
    apply filter_In in Hb as [_ Hb]; exact Hb.
Qed.

Lemma sort_values_desc_sorted (df : list ligne_resultat) :
  StronglySorted devant_desc (sort_values false df).
Proof.
  unfold sort_values, nargsort.
  set (non_nans := filter (fun a => negb (isna (r_ratio a))) df).
  assert (Hn : Forall (fun a => isna (r_ratio a) = false) (rev non_nans)).
  { eapply Permutation_Forall; [apply Permutation_rev|].
    apply ratios_presents_filter. }
  assert (Hs : Forall (fun a => isna (r_ratio a) = false)
                      (argsort r_ratio flt (rev non_nans))).
  { eapply Permutation_Forall; [apply Permutation_sym, argsort_perm|]; auto. }
  apply StronglySorted_app.
  - apply StronglySorted_impl
      with (R := fun a b => pas_apres r_ratio flt b a).
    + intros a b Ha Hb Hab. right.
      rewrite Forall_forall in Hs.
      apply flt_false_fle; auto; apply Hs; apply in_rev; auto.
    + apply StronglySorted_rev.
      apply argsort_sorted with (dom := fun x => isna x = false); auto.
      * intros; apply flt_asym; auto.
      * intros a b c Ha Hb Hc H1 H2; apply (flt_negtrans a b c); auto.
  - apply manquants_sorted; [intros; left; auto | apply manquants_filter].
  - intros a b _ Hb. left.
    apply filter_In in Hb as [_ Hb]; exact Hb.
Qed.

(** The first rows of a sorted permutation: their number, their order, and
    what is left out. *)
Lemma head_classement (R : ligne_resultat -> ligne_resultat -> Prop)
  (df trie : list ligne_resultat) :
  Permutation trie df -> StronglySorted R trie ->
  let t := head (Nat.min 3 (List.length trie)) trie in
  List.length t = Nat.min 3 (List.length df) /\
  StronglySorted R t /\
  (exists reste, Permutation (t ++ reste) df /\
                 forall a b, In a t -> In b reste -> R a b) /\
  ((List.length df < 3)%nat -> t = trie).
Proof.
  intros HP HS t. unfold t, head.
  pose proof (Permutation_length HP) as HL.
  pose proof (firstn_skipn (Nat.min 3 (List.length trie)) trie) as Hsplit.
  rewrite <- Hsplit in HS.
  apply StronglySorted_app_inv in HS as (S1 & _ & C).
  repeat split; auto.
  - rewrite length_firstn, HL. lia.
  - exists (skipn (Nat.min 3 (List.length trie)) trie). split; auto.
    rewrite Hsplit; exact HP.
  - intros Hn. apply firstn_all2. lia.
Qed.

(** C9. For a result table of n rows, [top3] holds min(3, n) rows in
    descending order of ratio and every row left out has a ratio that is
    missing or at most each ratio kept; [flop3] holds min(3, n) rows in
    ascending order and every row left out has a ratio that is missing or
    at least each ratio kept; with fewer than 3 rows both tables hold all
    the rows.  Both are total functions: nothing is raised. *)
Theorem top3_flop3_classement (df : list ligne_resultat) :
  let n := List.length df in
  (List.length (top3 df) = Nat.min 3 n /\
   StronglySorted devant_desc (top3 df) /\
   exists reste, Permutation (top3 df ++ reste) df /\
                 forall a b, In a (top3 df) -> In b reste -> devant_desc a b) /\
  (List.length (flop3 df) = Nat.min 3 n /\
   StronglySorted devant_asc (flop3 df) /\
   exists reste, Permutation (flop3 df ++ reste) df /\
                 forall a b, In a (flop3 df) -> In b reste -> devant_asc a b) /\
  ((n < 3)%nat -> Permutation (top3 df) df /\ Permutation (flop3 df) df).
Proof.
  intros n.
  destruct (head_classement devant_desc df (sort_values false df)
              (sort_values_perm false df) (sort_values_desc_sorted df))
    as (L1 & S1 & R1 & A1).
  destruct (head_classement devant_asc df (sort_values true df)
              (sort_values_perm true df) (sort_values_asc_sorted df))
    as (L2 & S2 & R2 & A2).
  split; [|split].
  - unfold top3. repeat split; auto.
  - unfold flop3. repeat split; auto.
  - intros Hn. unfold top3, flop3. rewrite (A1 Hn), (A2 Hn).
    split; apply sort_values_perm.
Qed.

(** With the two sample strings both rankings hold the whole table. *)
Lemma top3_flop3_classement_witness :
  Permutation (top3 df_deux) df_deux /\ Permutation (flop3 df_deux) df_deux.
Proof.
  apply (top3_flop3_classement df_deux). vm_compute. lia.
Defined.

(* ------------------------------------------------------------------ *)
(** ** Ratio table *)

Lemma merge_left_In (string : Z) (energie : float)
  (df_carac : list ligne_carac) (r : ligne_resultat) :
  In r (merge_left string energie df_carac) ->
  r_string r = string /\ r_energie r = energie /\
  r_ratio r = fdiv (r_energie r) (r_puissance_installee r) /\
  ((r_puissance_installee r = NaN /\
    forall c, In c df_carac -> c_string c <> string) \/
   (exists c, In c df_carac /\ c_string c = string /\
              r_puissance_installee r = puissance_installee c)).
Proof.
  unfold merge_left.
  destruct (filter (fun c => c_string c =? string) df_carac) as [|c0 cs] eqn:E.
  - intros [<-|[]]. simpl. repeat split; auto. left. split; auto.
    intros c Hc Heq.
    assert (Hin : In c (filter (fun c => c_string c =? string) df_carac)).
    { apply filter_In. split; auto. apply Z.eqb_eq; exact Heq. }
    rewrite E in Hin. exact Hin.
  - rewrite <- E. intros Hr. apply in_map_iff in Hr as (c & <- & Hc).
    apply filter_In in Hc as [Hc Hs]. apply Z.eqb_eq in Hs.
    simpl. repeat split; auto. right. exists c. auto.
Qed.

Lemma df_resultats_In (energies : list float) (df_carac : list ligne_carac)
  (r : ligne_resultat) :
  In r (df_resultats energies df_carac) ->
  exists i e, In (i, e) (numeroter 1 energies) /\
              In r (merge_left i e df_carac).
Proof.
  unfold df_resultats. intros H.
  apply in_flat_map in H as ([i e] & Hie & Hr).
  exists i, e. auto.
Qed.

(** A row whose ratio is present has a characteristics row. *)
Lemma ratio_present_carac (energies : list float)
  (df_carac : list ligne_carac) (r : ligne_resultat) :
  In r (df_resultats energies df_carac) -> isna (r_ratio r) = false ->
  exists c, In c df_carac /\ c_string c = r_string r.
Proof.
  intros Hr Hn.
  apply df_resultats_In in Hr as (i & e & _ & Hr).
  apply merge_left_In in Hr as (Hs & _ & Hq & [[Hc _]|(c & Hc & Hcs & _)]).
  - rewrite Hq, Hc, fdiv_nan_r in Hn. discriminate.
  - exists c. split; auto. congruence.
Qed.

Lemma fdiv_zero (x y : float) :
  feqb y (Fin 0) = true ->
  fdiv x y = PInf \/ fdiv x y = NInf \/ fdiv x y = NaN.
Proof.
  destruct y as [b| | |]; try discriminate.
  unfold feqb; simpl. intros Hb.
  assert (Hz : Qeq_bool b 0 = true).
  { apply Qeq_bool_iff. apply Qeq_alt.
    destruct (Qcompare b 0); auto; discriminate. }
  destruct x as [a| | |]; simpl; auto.
  - rewrite Hz. unfold inf_signe. destruct (Qcompare a 0); auto.
  - assert (Hc : Qcompare b 0 = Eq)
      by (destruct (Qcompare b 0); auto; discriminate).
    rewrite Hc; auto.
  - assert (Hc : Qcompare b 0 = Eq)
      by (destruct (Qcompare b 0); auto; discriminate).
    rewrite Hc; auto.
Qed.

Lemma In_firstn {A : Type} (n : nat) (l : list A) (x : A) :
  In x (firstn n l) -> In x l.
Proof.
  intros H. rewrite <- (firstn_skipn n l). apply in_or_app; left; exact H.
Qed.

Lemma compter_non_nans (df : list ligne_resultat) :
  List.length (filter (fun a => negb (isna (r_ratio a))) df)
  = compter (map r_ratio df).
Proof.
  unfold compter, notna.
  induction df as [|a df IH]; simpl; auto.
  destruct (isna (r_ratio a)); simpl; auto.
Qed.

(** With three ratios present, the first three rows of a ranking carry a
    ratio. *)
Lemma head_sort_values_present (ascending : bool)
  (df : list ligne_resultat) (r : ligne_resultat) :
  (3 <= compter (map r_ratio df))%nat ->
  In r (head (Nat.min 3 (List.length (sort_values ascending df)))
             (sort_values ascending df)) ->
  isna (r_ratio r) = false.
Proof.
  intros H3 Hr. unfold head in Hr.
  remember (Nat.min 3 (List.length (sort_values ascending df))) as n eqn:En.
  assert (Hle : (n <= 3)%nat) by lia. clear En.
  unfold sort_values, nargsort in Hr.
  set (non_nans := filter (fun a => negb (isna (r_ratio a))) df) in *.
  set (tries := if ascending then argsort r_ratio flt non_nans
                else rev (argsort r_ratio flt (rev non_nans))) in *.
  assert (HP : Permutation tries non_nans).
  { unfold tries. destruct ascending.
    - apply argsort_perm.
    - eapply Permutation_trans; [apply Permutation_sym, Permutation_rev|].
      eapply Permutation_trans; [apply argsort_perm|].
      apply Permutation_sym, Permutation_rev. }
  assert (HL : (3 <= List.length tries)%nat).
  { rewrite (Permutation_length HP). unfold non_nans.
    rewrite compter_non_nans. exact H3. }
  rewrite firstn_app in Hr.
  replace (n - List.length tries)%nat with 0%nat in Hr by lia.
  simpl in Hr. rewrite app_nil_r in Hr.
  apply In_firstn in Hr.
  apply (Permutation_in _ HP) in Hr.
  pose proof (ratios_presents_filter df) as HF.
  rewrite Forall_forall in HF. apply HF; exact Hr.
Qed.

(** C1, as the code has it.  Every row of the ratio table carries the
    produced energy divided by the installed capacity, under the rules of
    float division: without a characteristics row the capacity and the
    ratio are missing (NaN), with a capacity of zero the ratio is an
    infinity or NaN.  Nothing is signalled and every string of the power
    file keeps its row.  In both rankings the rows with a missing ratio come
    after the others, so that they are absent from [top3] and [flop3] as
    soon as three ratios are present. *)
Theorem ratio_energie_sur_capacite (energies : list float)
  (df_carac : list ligne_carac) :
  let df := df_resultats energies df_carac in
  (forall r, In r df ->
     r_ratio r = fdiv (r_energie r) (r_puissance_installee r)) /\
  (forall i e, In (i, e) (numeroter 1 energies) ->
     exists r, In r df /\ r_string r = i /\ r_energie r = e) /\
  (forall r, In r df ->
     (forall c, In c df_carac -> c_string c <> r_string r) ->
     r_puissance_installee r = NaN /\ r_ratio r = NaN) /\
  (forall r, In r df ->
     feqb (r_puissance_installee r) (Fin 0) = true ->
     r_ratio r = PInf \/ r_ratio r = NInf \/ r_ratio r = NaN) /\
  ((3 <= compter (map r_ratio df))%nat ->
   forall r, In r (top3 df) \/ In r (flop3 df) -> isna (r_ratio r) = false).
Proof.
  intros df. repeat split.
  - intros r Hr. apply df_resultats_In in Hr as (i & e & _ & Hr).
    apply merge_left_In in Hr. tauto.
  - intros i e Hie.
    assert (Hne : exists r, In r (merge_left i e df_carac)).
    { unfold merge_left.
      destruct (filter (fun c => c_string c =? i) df_carac);
        simpl; eauto. }
    destruct Hne as (r & Hr). exists r.
    pose proof (merge_left_In _ _ _ _ Hr) as (Hs & He & _).
    repeat split; auto.
    unfold df, df_resultats. apply in_flat_map. exists (i, e). auto.
  - apply df_resultats_In in H as (i & e & _ & Hr).
    apply merge_left_In in Hr as (Hs & _ & _ & [[Hc _]|(c & Hc & Hcs & _)]);
      auto.
    exfalso. apply (H0 c Hc). congruence.
  - apply df_resultats_In in H as (i & e & _ & Hr).
    apply merge_left_In in Hr as (Hs & _ & Hq & [[Hc _]|(c & Hc & Hcs & _)]).
    + rewrite Hq, Hc. apply fdiv_nan_r.
    + exfalso. apply (H0 c Hc). congruence.
  - intros r Hr Hz. apply df_resultats_In in Hr as (i & e & _ & Hr).
    apply merge_left_In in Hr as (_ & _ & Hq & _).
    rewrite Hq. apply fdiv_zero; exact Hz.
  - intros H3 r [Hr|Hr].
    + apply (head_sort_values_present false df r H3 Hr).
    + apply (head_sort_values_present true df r H3 Hr).
Qed.

(** The ratio table of the four sample strings has three ratios present,
    and string 2, first of its top ranking, has a ratio. *)
Lemma ratio_energie_sur_capacite_witness :
  (3 <= compter (map r_ratio df_quatre))%nat /\
  In (ligne 2 (Fin 4.2) (Fin 1)) (top3 df_quatre) /\
  isna (r_ratio (ligne 2 (Fin 4.2) (Fin 1))) = false.
Proof.
  assert (H3 : (3 <= compter (map r_ratio df_quatre))%nat)
    by (vm_compute; lia).
  assert (Hin : In (ligne 2 (Fin 4.2) (Fin 1)) (top3 df_quatre))
    by (vm_compute; auto).
  split; [exact H3|]. split; [exact Hin|].
  apply (ratio_energie_sur_capacite energies_quatre carac_quatre).
  - exact H3.
  - left. exact Hin.
Defined.

(** C1 as stated fails: string 1 has a capacity of zero and string 2 has no
    characteristics row, yet nothing is raised and both are ranked, the
    infinite ratio first. *)
Lemma capacite_nulle_ou_absente_classee :
  map r_string df_deux = [1; 2] /\
  map r_puissance_installee df_deux = [Fin 0; NaN] /\
  map r_ratio df_deux = [PInf; NaN] /\
  map r_string (top3 df_deux) = [1; 2] /\
  map r_ratio (top3 df_deux) = [PInf; NaN] /\
  map r_string (flop3 df_deux) = [1; 2].
Proof. vm_compute. repeat split. Qed.

(* ------------------------------------------------------------------ *)
(** ** Detector *)

Lemma strings_sous_moyenne_In (df : list ligne_resultat) (row : ligne_resultat) :
  In row (strings_sous_moyenne df) <->
  In row df /\ flt (r_ratio row) (moyenne_globale df) = true.
Proof. unfold strings_sous_moyenne. apply filter_In. Qed.

Lemma strings_comparables_In (df_carac : list ligne_carac) (string_test : Z)
  (nb_pv_test pu_test : float) (i : Z) :
  In i (strings_comparables df_carac string_test nb_pv_test pu_test) <->
  exists c, In c df_carac /\ c_string c = i /\ i <> string_test /\
            feqb (c_nombre_pv c) nb_pv_test = true /\
            feqb (c_puissance_unitaire c) pu_test = true.
Proof.
  unfold strings_comparables. rewrite in_map_iff. split.
  - intros (c & <- & Hc). apply filter_In in Hc as [Hc Ht].
    apply andb_prop in Ht as [Ht Hpu]. apply andb_prop in Ht as [Hne Hnpv].
    exists c. repeat split; auto.
    apply Z.eqb_neq. destruct (c_string c =? string_test); auto; discriminate.
  - intros (c & Hc & <- & Hne & Hnpv & Hpu). exists c. split; auto.
    apply filter_In. split; auto.
    apply Z.eqb_neq in Hne. rewrite Hne, Hnpv, Hpu. reflexivity.
Qed.

Lemma ratios_comparables_In (df : list ligne_resultat) (comparables : list Z)
  (x : float) :
  In x (ratios_comparables df comparables) <->
  exists r, In r df /\ In (r_string r) comparables /\ r_ratio r = x.
Proof.
  assert (H : In x (map r_ratio (filter (isin comparables) df)) <->
              exists r, In r df /\ In (r_string r) comparables /\ r_ratio r = x).
  { rewrite in_map_iff. split.
    - intros (r & <- & Hr). apply filter_In in Hr as [Hr Hi].
      unfold isin in Hi. apply existsb_exists in Hi as (i & Hi & He).
      apply Z.eqb_eq in He. exists r. repeat split; auto. rewrite He; exact Hi.
    - intros (r & Hr & Hi & <-). exists r. split; auto.
      apply filter_In. split; auto.
      unfold isin. apply existsb_exists. exists (r_string r).
      split; auto. apply Z.eqb_refl. }
  unfold ratios_comparables. destruct comparables as [|i l]; [|exact H].
  split; [intros []|]. intros (r & _ & [] & _).
Qed.

Section DetecteurProprietes.

Variable racine : Q -> Q.
Variable df_carac : list ligne_carac.

Lemma analyser_string (df : list ligne_resultat) (row : ligne_resultat)
  (a : alerte) :
  analyser racine df_carac df row = Ok a -> a_string a = r_string row.
Proof.
  unfold analyser.
  destruct (pairs df_carac df row) as [ratios|e]; simpl; [|discriminate].
  destruct (format_2f _); simpl; [|discriminate].
  intros H; injection H as <-. reflexivity.
Qed.

(** With peers, the turn of the loop yields the alert row. *)
Lemma analyser_pairs (df : list ligne_resultat) (row : ligne_resultat)
  (ratios : list float) :
  pairs df_carac df row = Ok ratios -> ratios <> [] ->
  analyser racine df_carac df row =
  Ok {| a_string := r_string row;
        a_ecart := Fmt2f (ecart_pct ratios (r_ratio row));
        a_message := if flt (r_ratio row) (seuil_alerte racine ratios)
                     then Anormal else Acceptable |}.
Proof.
  intros Hp Hne. unfold analyser. rewrite Hp. simpl.
  destruct ratios as [|x ratios]; [contradiction|]. reflexivity.
Qed.

(** Without peers, formatting the placeholder text raises. *)
Lemma analyser_sans_pairs (df : list ligne_resultat) (row : ligne_resultat) :
  pairs df_carac df row = Ok [] ->
  analyser racine df_carac df row = Raise ValueError.
Proof. intros Hp. unfold analyser. rewrite Hp. reflexivity. Qed.

(** Every alert comes from a row the loop went through. *)
Lemma boucle_In (df rows : list ligne_resultat) (alertes : list alerte)
  (a : alerte) :
  In a (fst (boucle racine df_carac df rows alertes)) ->
  In a alertes \/
  exists row, In row rows /\ analyser racine df_carac df row = Ok a.
Proof.
  revert alertes. induction rows as [|row rest IH]; simpl; intros alertes H.
  - left; exact H.
  - destruct (analyser racine df_carac df row) as [a'|e] eqn:E; simpl in H.
    + apply IH in H as [H|(row' & Hr & Ha)].
      * apply in_app_or in H as [H|[<-|[]]]; eauto.
      * right. eauto.
    + left; exact H.
Qed.



(** A row below the global mean of a ratio table has its characteristics:
    the lookup [iloc[0]] succeeds. *)
Lemma pairs_ok (energies : list float) (row : ligne_resultat) :
  let df := df_resultats energies df_carac in
  In row (strings_sous_moyenne df) ->
  exists ratios, pairs df_carac df row = Ok ratios.
Proof.
  intros df Hrow. apply strings_sous_moyenne_In in Hrow as [Hin Hlt].
  apply flt_notna in Hlt as [Hn _].
  destruct (ratio_present_carac energies df_carac row Hin Hn)
    as (c & Hc & Hs).
  unfold pairs.
  destruct (filter (fun c => c_string c =? r_string row) df_carac)
    as [|c0 cs] eqn:E.
  - exfalso.
    assert (Hf : In c (filter (fun c => c_string c =? r_string row) df_carac)).
    { apply filter_In; split; auto. apply Z.eqb_eq; exact Hs. }
    rewrite E in Hf; exact Hf.
  - simpl. eauto.
Qed.

End DetecteurProprietes.

Lemma seuil_nan (m : float) : fsub m (fmul k NaN) = NaN.
Proof. destruct m; reflexivity. Qed.

Lemma nanstd_singleton (racine : Q -> Q) (x : float) :
  nanstd racine [x] = NaN.
Proof.
  unfold nanstd, nanvar, compter. simpl.
  destruct (notna x); reflexivity.
Qed.

(** C3. A string all of whose rows carry a ratio at or above the global
    mean has no alert row, whether the loop ran to its end or was cut by an
    exception. *)
Theorem au_dessus_moyenne_sans_alerte (racine : Q -> Q)
  (df_carac : list ligne_carac) (df : list ligne_resultat) (s : Z) :
  (forall r, In r df -> r_string r = s ->
             fge (r_ratio r) (moyenne_globale df) = true) ->
  forall a, In a (fst (detecter racine df_carac df)) -> a_string a <> s.
Proof.
  intros Hs a Ha Heq. unfold detecter in Ha.
  apply boucle_In in Ha as [[]|(row & Hrow & Hok)].
  apply analyser_string in Hok.
  apply strings_sous_moyenne_In in Hrow as [Hin Hlt].
  assert (Hge : fge (r_ratio row) (moyenne_globale df) = true)
    by (apply Hs; [exact Hin | congruence]).
  apply fle_flt_false in Hge. congruence.
Qed.

(** String 1 of the four sample strings (ratio 4, mean 3.05) gets no alert. *)
Lemma au_dessus_moyenne_sans_alerte_witness :
  Forall (fun a => a_string a <> 1)
         (fst (detecter racine_approx carac_quatre df_quatre)).
Proof.
  apply Forall_forall.
  apply au_dessus_moyenne_sans_alerte.
  intros r Hr Hs. vm_compute in Hr.
  destruct Hr as [<-|[<-|[<-|[<-|[]]]]]; try reflexivity; discriminate Hs.
Defined.

(** C4 fails on the code.  With the three sample strings, string 3 is below
    the mean and has no peer: the loop raises ValueError when it formats
    the placeholder text with [.2f], and no alert row is appended.  In
    general no alert row ever carries PasDeComparaison. *)
Theorem sans_pairs_valueerror :
  (forall racine,
     detecter racine carac_trois (df_resultats energies_trois carac_trois)
     = ([], Some ValueError)) /\
  (forall racine df_carac df a,
     In a (fst (detecter racine df_carac df)) ->
     a_message a <> PasDeComparaison).
Proof.
  split.
  - intros racine. vm_compute. reflexivity.
  - intros racine df_carac df a Ha. unfold detecter in Ha.
    apply boucle_In in Ha as [[]|(row & _ & Hok)].
    unfold analyser in Hok.
    destruct (pairs df_carac df row) as [ratios|e]; simpl in Hok;
      [|discriminate].
    destruct ratios as [|x ratios]; simpl in Hok; [discriminate|].
    injection Hok as <-. simpl.
    destruct (flt _ _); discriminate.
Qed.

(** C10. A string below the global mean with exactly one peer ratio: the
    standard deviation of the peers is NaN, the comparison with the
    threshold is false, and the alert row says Acceptable, whatever the
    ratios are. *)
Theorem pair_unique_acceptable (racine : Q -> Q) (energies : list float)
  (df_carac : list ligne_carac) (row : ligne_resultat) :
  let df := df_resultats energies df_carac in
  In row (strings_sous_moyenne df) ->
  exists ratios,
    pairs df_carac df row = Ok ratios /\
    (List.length ratios = 1%nat ->
     nanstd racine ratios = NaN /\
     flt (r_ratio row)
         (fsub (nanmean ratios) (fmul (Fin 1.5) (nanstd racine ratios)))
     = false /\
     exists a, analyser racine df_carac df row = Ok a /\
               a_message a = Acceptable).
Proof.
  intros df Hrow.
  destruct (pairs_ok df_carac energies row Hrow) as (ratios & Hp).
  exists ratios. split; [exact Hp|].
  intros Hlen.
  destruct ratios as [|x [|y ratios]]; try discriminate.
  assert (Hne : [x] <> []) by discriminate.
  pose proof (analyser_pairs racine df_carac df row [x] Hp Hne) as Ha.
  unfold seuil_alerte in Ha.
  rewrite nanstd_singleton in *.
  change (Fin 1.5) with k. rewrite seuil_nan in *. rewrite flt_nan_r in *.
  repeat split. eexists. split; [exact Ha|]. reflexivity.
Qed.

(** String 2 of the paired sample strings (ratio 1) has string 1 (ratio 4)
    as its only peer and is Acceptable. *)
Lemma pair_unique_acceptable_witness :
  exists a,
    analyser racine_approx carac_paires df_paires (ligne 2 (Fin 1) (Fin 1))
    = Ok a /\
    a_message a = Acceptable.
Proof.
  destruct (pair_unique_acceptable racine_approx energies_paires
              carac_paires (ligne 2 (Fin 1) (Fin 1))) as (ratios & Hp & H).
  - vm_compute. auto.
  - assert (Hr : ratios = [Fin (4 / 1)]).
    { vm_compute in Hp. injection Hp as <-. reflexivity. }
    destruct H as (_ & _ & Ha).
    + rewrite Hr; reflexivity.
    + exact Ha.
Defined.

(* ------------------------------------------------------------------ *)
(** ** Theoretical power *)

Lemma colonne_affecter_eq (name : Z) (col : list float) (df : colonnes) :
  colonne name (affecter name col df) = Some col.
Proof.
  induction df as [|[n c] df IH]; simpl.
  - rewrite Z.eqb_refl; reflexivity.
  - destruct (n =? name) eqn:E; simpl.
    + rewrite Z.eqb_refl; reflexivity.
    + rewrite E; exact IH.
Qed.

Lemma colonne_affecter_neq (name name' : Z) (col : list float) (df : colonnes) :
  name <> name' ->
  colonne name' (affecter name col df) = colonne name' df.
Proof.
  intros Hne. induction df as [|[n c] df IH]; simpl.
  - apply Z.eqb_neq in Hne. rewrite Hne; reflexivity.
  - destruct (n =? name) eqn:E; simpl.
    + apply Z.eqb_eq in E; subst n.
      apply Z.eqb_neq in Hne. rewrite Hne; reflexivity.
    + destruct (n =? name'); auto.
Qed.

Lemma py_int_of_Z (n : Z) : py_int (of_Z n) = Ok n.
Proof. unfold py_int, of_Z; simpl. rewrite Z.quot_1_r; reflexivity. Qed.

(** The loop over the characteristics: it ends without exception when every
    panel count is finite, leaves the columns it does not name as they
    were, and gives each string (named once) its column. *)
Lemma puissances_theoriques_spec (irradiance : list float)
  (df_carac : list ligne_carac) :
  Forall (fun c => exists m, py_int (c_nombre_pv c) = Ok m) df_carac ->
  forall df0, exists df,
    puissances_theoriques irradiance df_carac df0 = Ok df /\
    (forall name, ~ In name (map c_string df_carac) ->
                  colonne name df = colonne name df0) /\
    (NoDup (map c_string df_carac) ->
     forall row n, In row df_carac -> py_int (c_nombre_pv row) = Ok n ->
       colonne (c_string row) df =
       Some (map (fun g => puissance_theorique g n (c_puissance_unitaire row))
                 irradiance)).
Proof.
  induction 1 as [|c rest [m Hm] Hrest IH]; intros df0.
  - exists df0. simpl. repeat split; auto. intros _ row n [].
  - simpl. rewrite Hm. simpl.
    set (col := map (fun g => puissance_theorique g m (c_puissance_unitaire c))
                    irradiance).
    destruct (IH (affecter (c_string c) col df0)) as (df & Hdf & Hkeep & Hcol).
    exists df. split; [exact Hdf|]. split.
    + intros name Hname.
      rewrite Hkeep by (intros Hin; apply Hname; right; exact Hin).
      apply colonne_affecter_neq.
      intros Heq; apply Hname; left; exact Heq.
    + intros Hnd row n Hin Hn. inversion Hnd as [|? ? Hnotin Hnd']; subst.
      destruct Hin as [<-|Hin].
      * rewrite Hkeep by exact Hnotin.
        rewrite colonne_affecter_eq.
        rewrite Hm in Hn. injection Hn as <-. reflexivity.
      * apply Hcol; auto.
Qed.

Lemma py_int_tronquer (q : Q) : py_int (Fin q) = Ok (tronquer q).
Proof. reflexivity. Qed.

Lemma tronquer_entier (q : Q) (n : Z) :
  Qeq q (inject_Z n) -> tronquer q = n.
Proof.
  destruct q as [a d]. unfold Qeq, tronquer. simpl. intros H.
  rewrite Z.mul_1_r in H. rewrite H. apply Z.quot_mul. discriminate.
Qed.

Lemma puissances_theoriques_iterrows_app (irradiance : list float)
  (l1 l2 : list ligne_carac_lue) (df0 : colonnes) :
  puissances_theoriques_iterrows irradiance (l1 ++ l2) df0 =
  (df <- puissances_theoriques_iterrows irradiance l1 df0 ;;
   puissances_theoriques_iterrows irradiance l2 df).
Proof.
  revert df0. induction l1 as [|r l1 IH]; simpl; intros df0; auto.
  destruct (py_int (l_string r)) as [s|e]; simpl; auto.
  destruct (py_int (l_nombre_pv r)) as [n|e]; simpl; auto.
Qed.

(** On rows that are all finite the loop ends, and it leaves alone the
    columns that no row names. *)
Lemma puissances_theoriques_iterrows_finis (irradiance : list float)
  (df_carac : list ligne_carac_lue) :
  Forall ligne_finie df_carac ->
  forall df0, exists df,
    puissances_theoriques_iterrows irradiance df_carac df0 = Ok df /\
    forall name,
      (forall r, In r df_carac -> py_int (l_string r) <> Ok name) ->
      colonne name df = colonne name df0.
Proof.
  induction 1 as [|r rest [Hs Hn] Hrest IH]; intros df0.
  - exists df0. simpl. auto.
  - simpl.
    destruct (l_string r) as [qs| | |] eqn:Es; try discriminate.
    destruct (l_nombre_pv r) as [qn| | |] eqn:En; try discriminate.
    simpl.
    set (col := map _ irradiance).
    destruct (IH (affecter (tronquer qs) col df0)) as (df & Hdf & Hkeep).
    exists df. split; [exact Hdf|].
    intros name Hname. rewrite Hkeep.
    + apply colonne_affecter_neq. intros Heq.
      apply (Hname r (or_introl eq_refl)). rewrite Es, <- Heq. reflexivity.
    + intros r' Hr'. apply Hname. right; exact Hr'.
Qed.

(** A loop that ends has met finite rows only. *)
Lemma puissances_theoriques_iterrows_ok (irradiance : list float)
  (df_carac : list ligne_carac_lue) (df0 : colonnes) :
  (exists df, puissances_theoriques_iterrows irradiance df_carac df0 = Ok df) ->
  Forall ligne_finie df_carac.
Proof.
  revert df0. induction df_carac as [|r rest IH]; intros df0 [df H];
    [constructor|].
  simpl in H.
  destruct (l_string r) as [qs| | |] eqn:Es; simpl in H; try discriminate.
  destruct (l_nombre_pv r) as [qn| | |] eqn:En; simpl in H; try discriminate.
  constructor.
  - split; [rewrite Es|rewrite En]; reflexivity.
  - eapply IH. eauto.
Qed.

(** On rows whose string numbers are integers the loop over the frame as
    read is [puissances_theoriques]. *)
Lemma puissances_theoriques_iterrows_entiers (irradiance : list float)
  (lues : list ligne_carac_lue) (df_carac : list ligne_carac)
  (df0 : colonnes) :
  Forall2 (fun r c => l_string r = of_Z (c_string c) /\
                      l_puissance_unitaire r = c_puissance_unitaire c /\
                      l_nombre_pv r = c_nombre_pv c) lues df_carac ->
  puissances_theoriques_iterrows irradiance lues df0
  = puissances_theoriques irradiance df_carac df0.
Proof.
  intros H. revert df0.
  induction H as [|r c lues df_carac (Hs & Hp & Hn) _ IH]; intros df0; auto.
  simpl. rewrite Hs, py_int_of_Z, Hp, Hn. simpl.
  destruct (py_int (c_nombre_pv c)); simpl; auto.
Qed.

(** C5, as the code has it.  When every string number and every panel
    count of the characteristics is a finite number the loop ends without
    exception.  For the last row that carries, once truncated, the string
    number [s], with panel count [panel_count] and unit power [pu], the
    column "string s" then holds at each aligned timestamp with irradiance
    [g] the value [g * int(panel_count) * pu * 0.8], the panel count being
    truncated toward zero; for an integer panel count this is
    [g * panel_count * pu * 0.8]. *)
Theorem puissance_theorique_par_string (irradiance : list float)
  (avant apres : list ligne_carac_lue) (row : ligne_carac_lue)
  (string panel_count : Q) :
  Forall ligne_finie (avant ++ row :: apres) ->
  l_string row = Fin string ->
  l_nombre_pv row = Fin panel_count ->
  (forall r q, In r apres -> l_string r = Fin q ->
               tronquer q <> tronquer string) ->
  exists df col,
    puissances_theoriques_iterrows irradiance (avant ++ row :: apres) []
    = Ok df /\
    colonne (tronquer string) df = Some col /\
    List.length col = List.length irradiance /\
    forall i g,
      nth_error irradiance i = Some g ->
      let p := fmul (fmul (fmul g (of_Z (tronquer panel_count)))
                          (l_puissance_unitaire row)) (Fin 0.8) in
      nth_error col i = Some p /\
      (Qeq panel_count (inject_Z (tronquer panel_count)) ->
       float_eq p (fmul (fmul (fmul g (Fin panel_count))
                              (l_puissance_unitaire row)) (Fin 0.8))).
Proof.
  intros Hfin Hs Hn Hlast.
  apply Forall_app in Hfin as [Hav Hfin].
  inversion Hfin as [|? ? _ Hap]; subst.
  rewrite puissances_theoriques_iterrows_app.
  destruct (puissances_theoriques_iterrows_finis irradiance avant Hav [])
    as (df1 & Hdf1 & _).
  rewrite Hdf1. simpl. rewrite Hs, Hn. simpl.
  set (col := map (fun g => puissance_theorique g (tronquer panel_count)
                              (l_puissance_unitaire row)) irradiance).
  destruct (puissances_theoriques_iterrows_finis irradiance apres Hap
              (affecter (tronquer string) col df1)) as (df & Hdf & Hkeep).
  exists df, col. split; [exact Hdf|]. split; [|split].
  - rewrite Hkeep; [apply colonne_affecter_eq|].
    intros r Hr Hint.
    destruct (l_string r) as [q| | |] eqn:Eq; try discriminate.
    apply (Hlast r q Hr Eq). simpl in Hint. injection Hint as Hint. exact Hint.
  - apply length_map.
  - intros i g Hg. split.
    + unfold col. rewrite nth_error_map, Hg. reflexivity.
    + intros Hint.
      apply fmul_proper_l. apply fmul_proper_l. apply fmul_proper_r.
      simpl. symmetry; exact Hint.
Qed.

(** Three rows for the strings 1, 2 and 1 under the irradiances 0.5 and
    NaN: the column of string 2, twelve panels of unit power 0.3, exists
    and has two values. *)
Lemma puissance_theorique_par_string_witness :
  exists df col,
    puissances_theoriques_iterrows [Fin 0.5; NaN]
      ([carac_lue 1 1 1] ++ carac_lue 2 0.3 12 :: [carac_lue 1 2 3]) []
    = Ok df /\
    colonne 2 df = Some col /\
    List.length col = 2%nat.
Proof.
  destruct (puissance_theorique_par_string [Fin 0.5; NaN]
              [carac_lue 1 1 1] [carac_lue 1 2 3] (carac_lue 2 0.3 12) 2 12)
    as (df & col & Hdf & Hcol & Hlen & _).
  - repeat constructor.
  - reflexivity.
  - reflexivity.
  - intros r q [<-|[]] Hq. injection Hq as <-. discriminate.
  - exists df, col. auto.
Defined.

(** C5 as stated fails.  With two and a half panels the loop computes with
    two: under an irradiance of 1 and a unit power of 1 the column holds
    1.6 where [g * panel_count * unit_power * 0.8] is 2.  A row without
    panel count makes the loop raise ValueError, so that no string gets a
    theoretical power.  A string listed twice gets the power of its last
    row, not of its first. *)
Lemma panneaux_tronques_lignes_ecartees :
  puissances_theoriques_iterrows [Fin 1] carac_fraction []
  = Ok [(1, [puissance_theorique (Fin 1) 2 (Fin 1)])] /\
  float_eq (puissance_theorique (Fin 1) 2 (Fin 1)) (Fin 1.6) /\
  ~ float_eq (puissance_theorique (Fin 1) 2 (Fin 1))
             (fmul (fmul (fmul (Fin 1) (Fin 2.5)) (Fin 1)) (Fin 0.8)) /\
  puissances_theoriques_iterrows [Fin 1] carac_lue_manquante []
  = Raise ValueError /\
  puissances_theoriques_iterrows [Fin 1] carac_lue_doublon []
  = Ok [(1, [puissance_theorique (Fin 1) 3 (Fin 2)])] /\
  ~ float_eq (puissance_theorique (Fin 1) 3 (Fin 2))
             (fmul (fmul (fmul (Fin 1) (Fin 1)) (Fin 1)) (Fin 0.8)).
Proof.
  repeat split; try reflexivity; vm_compute; discriminate.
Qed.

(* ------------------------------------------------------------------ *)
(** ** Sums and energy *)

Lemma fold_left_fadd_eq (l : list float) (a b : float) :
  float_eq a b -> float_eq (fold_left fadd l a) (fold_left fadd l b).
Proof.
  revert a b. induction l as [|x l IH]; simpl; intros a b H; auto.
  apply IH. rewrite H. reflexivity.
Qed.

Lemma fold_left_fadd_acc (l : list float) (a : float) :
  float_eq (fold_left fadd l a) (fadd a (somme l)).
Proof.
  unfold somme. revert a. induction l as [|x l IH]; simpl; intros a.
  - symmetry; apply fadd_0_r.
  - rewrite (IH (fadd a x)), (IH (fadd (Fin 0) x)).
    rewrite fadd_assoc.
    apply fadd_proper; [reflexivity|].
    apply fadd_proper; [|reflexivity].
    symmetry; apply fadd_0_l.
Qed.

Lemma somme_cons (x : float) (l : list float) :
  float_eq (somme (x :: l)) (fadd x (somme l)).
Proof.
  unfold somme at 1. simpl.
  rewrite fold_left_fadd_acc.
  apply fadd_proper; [apply fadd_0_l | reflexivity].
Qed.

Lemma nansum_cons (x : float) (l : list float) :
  float_eq (nansum (x :: l)) (fadd (masquer x) (nansum l)).
Proof. unfold nansum. simpl. apply somme_cons. Qed.

(** A sum over the rows that pass one of two exclusive tests is the sum of
    the sums over each test. *)
Lemma nansum_filter_partition {A : Type} (v : A -> float)
  (p p1 p2 : A -> bool) (l : list A) :
  (forall a, p a = p1 a || p2 a) ->
  (forall a, p1 a && p2 a = false) ->
  float_eq (nansum (map v (filter p l)))
           (fadd (nansum (map v (filter p1 l))) (nansum (map v (filter p2 l)))).
Proof.
  intros Hor Hex. induction l as [|a l IH]; simpl.
  - vm_compute. reflexivity.
  - rewrite Hor. specialize (Hex a).
    destruct (p1 a), (p2 a); simpl in *; try discriminate.
    + rewrite !nansum_cons, IH. symmetry; apply fadd_assoc.
    + rewrite !nansum_cons, IH.
      rewrite <- !fadd_assoc.
      apply fadd_proper; [apply fadd_comm | reflexivity].
    + exact IH.
Qed.

Lemma dans_periode_partition (d0 d1 d2 : Z) (t : timestamp) :
  d0 <= d1 -> d1 <= d2 ->
  dans_periode d0 d2 t = dans_periode d0 d1 t || dans_periode (d1 + 1) d2 t
  /\ dans_periode d0 d1 t && dans_periode (d1 + 1) d2 t = false.
Proof.
  intros H01 H12. destruct t as [t|]; simpl; auto.
  destruct (Z.leb_spec d0 (date_of t)), (Z.leb_spec (date_of t) d2),
    (Z.leb_spec (date_of t) d1), (Z.leb_spec (d1 + 1) (date_of t));
    simpl; split; auto; lia.
Qed.

(** C6, as the code has it.  Both bounds of a range are inclusive at the
    granularity of the date, so two ranges that share the date t1 both
    count its samples.  For dates t0 <= t1 <= t2 the energy of a string
    over [t0, t2] is the energy over [t0, t1] plus the energy over
    [t1 + 1, t2] (exact arithmetic), each energy being the sum of the
    powers in kW times 10/60. *)
Theorem energie_additive (df_puissance : list ligne_puissance) (j : nat)
  (t0 t1 t2 : Z) :
  t0 <= t1 -> t1 <= t2 ->
  float_eq (energie_periode df_puissance j t0 t2)
           (fadd (energie_periode df_puissance j t0 t1)
                 (energie_periode df_puissance j (t1 + 1) t2)).
Proof.
  intros H01 H12.
  unfold energie_periode, energie_string, colonne_string, filtrer_periode.
  rewrite !map_map.
  apply nansum_filter_partition.
  - intros r. apply (dans_periode_partition t0 t1 t2 (p_time r) H01 H12).
  - intros r. apply (dans_periode_partition t0 t1 t2 (p_time r) H01 H12).
Qed.

(** The two sample days: the energy over days 0 to 1 is the energy of day 0
    plus the energy of day 1. *)
Lemma energie_additive_witness :
  float_eq (energie_periode puissance_deux_jours 0 0 1)
           (fadd (energie_periode puissance_deux_jours 0 0 0)
                 (energie_periode puissance_deux_jours 0 (0 + 1) 1)).
Proof. apply energie_additive; lia. Defined.

(** C6 as stated fails: with t0 = t1 = 0 and t2 = 1 the sample of day 0 is
    counted in [t0, t1] and in [t1, t2]; the energy over [0, 1] is 1.5 kWh
    while the two parts add up to 2.5 kWh. *)
Lemma energie_jour_commun_compte_deux_fois :
  float_eq (energie_periode puissance_deux_jours 0 0 1) (Fin 1.5) /\
  float_eq (fadd (energie_periode puissance_deux_jours 0 0 0)
                 (energie_periode puissance_deux_jours 0 0 1)) (Fin 2.5) /\
  ~ float_eq (energie_periode puissance_deux_jours 0 0 1)
             (fadd (energie_periode puissance_deux_jours 0 0 0)
                   (energie_periode puissance_deux_jours 0 0 1)).
Proof.
  repeat split; try (vm_compute; reflexivity).
  vm_compute. discriminate.
Qed.

(* ------------------------------------------------------------------ *)
(** ** Missing values *)

Lemma fdiv_proper_l (a b c : float) :
  float_eq a b -> float_eq (fdiv a c) (fdiv b c).
Proof.
  destruct a as [q| | |], b as [q'| | |]; simpl; try contradiction;
    intros H; try reflexivity.
  destruct c as [d| | |]; simpl; try reflexivity.
  destruct (Qeq_bool d 0).
  - unfold inf_signe. rewrite H. reflexivity.
  - simpl. rewrite H. reflexivity.
Qed.

Lemma nansum_presents (l : list float) :
  float_eq (nansum l) (somme (presents l)).
Proof.
  induction l as [|x l IH].
  - reflexivity.
  - rewrite nansum_cons, IH. unfold presents, masquer, notna. simpl.
    destruct (isna x); simpl.
    + apply fadd_0_l.
    + symmetry; apply somme_cons.
Qed.

Lemma nanmean_presents (l : list float) :
  float_eq (nanmean l) (moyenne_presents l).
Proof.
  unfold nanmean, moyenne_presents, compter. fold (presents l).
  pose proof (nansum_presents l) as H.
  destruct (presents l) as [|x p]; simpl List.length.
  - reflexivity.
  - apply fdiv_proper_l; exact H.
Qed.

Lemma presents_dix_minutes (l : list float) :
  presents (map (fun x => fmul x dix_minutes) l)
  = map (fun x => fmul x dix_minutes) (presents l).
Proof.
  unfold presents. induction l as [|x l IH]; simpl; auto.
  destruct x; simpl; rewrite IH; reflexivity.
Qed.

(** C7.  A cell that cannot be read as a number becomes NaN, and the
    ingestion keeps every row: it is a total function and raises nothing.
    A missing irradiance gives a missing theoretical power.  The sums and
    the means leave the missing values out: a sum is the sum of the values
    present, a mean is that sum divided by the number of values present
    (NaN when there is none); so are the energy of a string and the global
    mean of the ratios. *)
Theorem coercion_et_agregations (lire_nombre : string -> option Q)
  (lire_date : string -> option Z) :
  (forall s, lire_nombre s = None ->
             to_numeric lire_nombre (CellTxt s) = NaN) /\
  (forall df,
     Permutation (traiter_fichier_onduleur lire_nombre lire_date df)
                 (map (convertir_ligne lire_nombre lire_date) df)) /\
  (forall n_pv unitaire, puissance_theorique NaN n_pv unitaire = NaN) /\
  (forall l, float_eq (nansum l) (somme (presents l))) /\
  (forall l, float_eq (nanmean l) (moyenne_presents l)) /\
  (forall j df,
     float_eq (energie_string j df)
              (somme (map (fun x => fmul x dix_minutes)
                          (presents (colonne_string j df))))) /\
  (forall df,
     float_eq (moyenne_globale df) (moyenne_presents (map r_ratio df))).
Proof.
  repeat split.
  - intros s Hs. simpl. rewrite Hs. reflexivity.
  - intros df. apply nargsort_perm.
  - intros l. apply nansum_presents.
  - intros l. apply nanmean_presents.
  - intros j df. unfold energie_string.
    rewrite nansum_presents, presents_dix_minutes. reflexivity.
  - intros df. apply nanmean_presents.
Qed.

(** With a parser that reads nothing, the text cell "abc" becomes NaN, and
    the mean of NaN and 3 is 3. *)
Lemma coercion_et_agregations_witness :
  to_numeric (fun _ => None) (CellTxt "abc") = NaN /\
  float_eq (nanmean [NaN; Fin 3]) (Fin 3).
Proof.
  destruct (coercion_et_agregations (fun _ => None) (fun _ => None))
    as (H1 & _ & _ & _ & H5 & _).
  split.
  - apply H1. reflexivity.
  - rewrite H5. vm_compute. reflexivity.
Defined.

(* ------------------------------------------------------------------ *)
(** ** The peers, their mean and their standard deviation *)


















(* ------------------------------------------------------------------ *)
(** ** Alignment *)

Lemma strictement_croissant_sorted (l : list Z) :
  strictement_croissant l = true -> StronglySorted Z.lt l.
Proof.
  induction l as [|a l IH]; intros H; [constructor|].
  destruct l as [|b l].
  - repeat constructor.
  - simpl in H. apply andb_prop in H as [Hab Hl]. apply Z.ltb_lt in Hab.
    specialize (IH Hl). constructor; auto.
    inversion IH as [|? ? _ HF]; subst.
    constructor; auto.
    rewrite Forall_forall in *. intros c Hc. specialize (HF c Hc). lia.
Qed.

Lemma strictement_croissant_est_trie (l : list Z) :
  strictement_croissant l = true -> est_trie l = true.
Proof.
  induction l as [|a l IH]; auto.
  destruct l as [|b l]; auto.
  intros H. apply andb_prop in H as [Hab Hl].
  change (((a <=? b) && est_trie (b :: l)) = true).
  rewrite (IH Hl), andb_true_r.
  apply Z.leb_le. apply Z.ltb_lt in Hab. lia.
Qed.

Lemma chercher_arriere_au_dela (x : Z) (right : list (Z * float)) :
  Forall (fun r => x < fst r) right -> chercher_arriere x right = None.
Proof.
  intros H. destruct right as [|r rest]; auto.
  inversion H as [|? ? Hr _]; subst. simpl.
  destruct (Z.leb_spec (fst r) x); auto. lia.
Qed.

Lemma chercher_arriere_strict (right : list (Z * float)) (r : Z * float) :
  StronglySorted Z.lt (map fst right) -> In r right ->
  chercher_arriere (fst r) right = Some r.
Proof.
  induction right as [|a rest IH]; simpl; intros HS Hin; [contradiction|].
  inversion HS as [|? ? HS' HF]; subst.
  destruct Hin as [->|Hin].
  - rewrite Z.leb_refl.
    rewrite chercher_arriere_au_dela; auto.
    rewrite Forall_forall in *. intros b Hb. apply HF.
    apply in_map; exact Hb.
  - assert (Hlt : fst a < fst r).
    { rewrite Forall_forall in HF. apply HF. apply in_map; exact Hin. }
    destruct (Z.leb_spec (fst a) (fst r)); [|lia].
    rewrite (IH HS' Hin). reflexivity.
Qed.

Lemma chercher_avant_strict (right : list (Z * float)) (r : Z * float) :
  StronglySorted Z.lt (map fst right) -> In r right ->
  chercher_avant (fst r) right = Some r.
Proof.
  unfold chercher_avant.
  induction right as [|a rest IH]; simpl; intros HS Hin; [contradiction|].
  inversion HS as [|? ? HS' HF]; subst.
  destruct Hin as [->|Hin].
  - rewrite Z.leb_refl. reflexivity.
  - assert (Hlt : fst a < fst r).
    { rewrite Forall_forall in HF. apply HF. apply in_map; exact Hin. }
    destruct (Z.leb_spec (fst r) (fst a)); [lia|].
    apply IH; auto.
Qed.

(** C8, as the library has it.  When the power and the irradiance series
    have the same timestamps and these are strictly increasing, the
    alignment succeeds and returns, row for row, the irradiance values
    unchanged. *)
Theorem alignement_identique (right : list (Z * float)) :
  strictement_croissant (map fst right) = true ->
  merge_asof (map fst right) right = Ok (map snd right).
Proof.
  intros H. unfold merge_asof.
  rewrite (strictement_croissant_est_trie _ H). simpl. f_equal.
  apply strictement_croissant_sorted in H.
  rewrite map_map. apply map_ext_in. intros r Hr.
  unfold plus_proche.
  rewrite (chercher_arriere_strict right r H Hr),
          (chercher_avant_strict right r H Hr).
  rewrite Z.sub_diag. reflexivity.
Qed.

(** Three readings ten minutes apart, one of them missing, come back as
    they are. *)
Lemma alignement_identique_witness :
  merge_asof (map fst irradiance_reguliere) irradiance_reguliere
  = Ok [Fin 0.1; NaN; Fin 0.3].
Proof. apply (alignement_identique irradiance_reguliere). reflexivity. Defined.

(** C8 as stated fails on a timestamp that occurs twice: each power row
    at that timestamp gets the last of the readings, here 2 and 2 instead
    of 1 and 2. *)
Lemma alignement_doublon :
  merge_asof (map fst irradiance_doublon) irradiance_doublon
  = Ok [Fin 2; Fin 2] /\
  merge_asof (map fst irradiance_doublon) irradiance_doublon
  <> Ok (map snd irradiance_doublon).
Proof. split; [reflexivity | discriminate]. Qed.

(* ================================================================== *)
(** * Further properties of the application *)

(* ------------------------------------------------------------------ *)
(** ** Ingestion keeps the frames sorted *)

Lemma StronglySorted_filter {A : Type} (R : A -> A -> Prop) (f : A -> bool)
  (l : list A) :
  StronglySorted R l -> StronglySorted R (filter f l).
Proof.
  induction 1 as [|a l HS IH HF]; simpl; [constructor|].
  destruct (f a); auto. constructor; auto.
  rewrite Forall_forall in *. intros b Hb.
  apply filter_In in Hb as [Hb _]. auto.
Qed.

Lemma StronglySorted_map {A B : Type} (R : B -> B -> Prop) (f : A -> B)
  (l : list A) :
  StronglySorted (fun a b => R (f a) (f b)) l -> StronglySorted R (map f l).
Proof.
  induction 1 as [|a l HS IH HF]; simpl; constructor; auto.
  rewrite Forall_forall in *. intros b Hb.
  apply in_map_iff in Hb as (x & <- & Hx). auto.
Qed.

Lemma lt_time_asym (a b : timestamp) :
  isnat a = false -> isnat b = false ->
  lt_time a b = true -> lt_time b a = false.
Proof.
  destruct a as [x|], b as [y|]; simpl; try discriminate.
  intros _ _ H. apply Z.ltb_lt in H. apply Z.ltb_ge. lia.
Qed.

Lemma lt_time_negtrans (a b c : timestamp) :
  isnat a = false -> isnat b = false -> isnat c = false ->
  lt_time b a = false -> lt_time c b = false -> lt_time c a = false.
Proof.
  destruct a as [x|], b as [y|], c as [z|]; simpl; try discriminate.
  intros _ _ _ H1 H2. apply Z.ltb_ge in H1, H2. apply Z.ltb_ge. lia.
Qed.

(** An ascending sort on timestamps leaves the column in order. *)
Lemma nargsort_time_sorted {A : Type} (cle : A -> timestamp) (l : list A) :
  StronglySorted (fun a b => ordre_temps (cle a) (cle b))
                 (nargsort cle lt_time isnat true l).
Proof.
  unfold nargsort.
  set (non_nans := filter (fun a => negb (isnat (cle a))) l).
  assert (Hn : Forall (fun a => isnat (cle a) = false) non_nans).
  { rewrite Forall_forall. intros a Ha. apply filter_In in Ha as [_ Ha].
    destruct (isnat (cle a)); auto; discriminate. }
  assert (Hs : Forall (fun a => isnat (cle a) = false)
                      (argsort cle lt_time non_nans)).
  { eapply Permutation_Forall; [apply Permutation_sym, argsort_perm|]; auto. }
  apply StronglySorted_app.
  - apply StronglySorted_impl with (R := pas_apres cle lt_time).
    + intros a b Ha Hb Hab. rewrite Forall_forall in Hs.
      specialize (Hs a Ha) as Ha'. specialize (Hs b Hb) as Hb'.
      unfold pas_apres in Hab.
      destruct (cle a) as [x|], (cle b) as [y|]; simpl in *; try discriminate.
      apply Z.ltb_ge in Hab. exact Hab.
    + apply argsort_sorted with (dom := fun t => isnat t = false); auto.
      * intros; apply lt_time_asym; auto.
      * intros a b c Ha Hb Hc H1 H2; apply (lt_time_negtrans a b c); auto.
  - clear. induction l as [|a l IH]; simpl; [constructor|].
    destruct (isnat (cle a)) eqn:E; auto.
    constructor; [exact IH|].
    rewrite Forall_forall. intros b Hb. apply filter_In in Hb as [_ Hb].
    destruct (cle a), (cle b); simpl in *; auto; discriminate.
  - intros a b _ Hb. apply filter_In in Hb as [_ Hb].
    destruct (cle a), (cle b); simpl in *; auto; discriminate.
Qed.

(** X1. After ingestion the timestamps of the power frame and of the
    irradiance frame are in non-decreasing order, the unreadable ones
    (NaT) at the end. *)
Theorem ingestion_triee (lire_nombre : string -> option Q)
  (lire_date : string -> option Z) :
  (forall df, StronglySorted ordre_temps
                (map p_time (traiter_fichier_onduleur lire_nombre lire_date df)))
  /\
  (forall df, StronglySorted ordre_temps
                (map i_time
                   (traiter_fichier_irradiance lire_nombre lire_date df))).
Proof.
  split; intros df; apply StronglySorted_map; apply nargsort_time_sorted.
Qed.

(* ------------------------------------------------------------------ *)
(** ** Alignment: the nearest reading *)

Lemma est_trie_sorted (l : list Z) :
  est_trie l = true -> StronglySorted Z.le l.
Proof.
  induction l as [|a l IH]; intros H; [constructor|].
  destruct l as [|b l].
  - repeat constructor.
  - simpl in H. apply andb_prop in H as [Hab Hl]. apply Z.leb_le in Hab.
    specialize (IH Hl). constructor; auto.
    inversion IH as [|? ? _ HF]; subst.
    constructor; auto.
    rewrite Forall_forall in *. intros c Hc. specialize (HF c Hc). lia.
Qed.

Lemma sorted_est_trie (l : list Z) :
  StronglySorted Z.le l -> est_trie l = true.
Proof.
  induction 1 as [|a l HS IH HF]; auto.
  destruct l as [|b l]; auto.
  change (((a <=? b) && est_trie (b :: l)) = true).
  rewrite IH, andb_true_r. apply Z.leb_le.
  inversion HF; auto.
Qed.

Lemma chercher_arriere_spec (x : Z) (right : list (Z * float)) :
  StronglySorted Z.le (map fst right) ->
  match chercher_arriere x right with
  | Some rb => In rb right /\ fst rb <= x /\
               forall r', In r' right -> fst r' <= x -> fst r' <= fst rb
  | None => forall r', In r' right -> x < fst r'
  end.
Proof.
  induction right as [|a rest IH]; simpl; intros HS.
  - intros r' [].
  - inversion HS as [|? ? HS' HF]; subst. specialize (IH HS').
    assert (Ha : forall r', In r' rest -> fst a <= fst r').
    { intros r' Hr'. rewrite Forall_forall in HF. apply HF.
      apply in_map; exact Hr'. }
    destruct (Z.leb_spec (fst a) x) as [Hle|Hgt].
    + destruct (chercher_arriere x rest) as [rb|].
      * destruct IH as (Hin & Hx & Hmax). repeat split; auto.
        intros r' [<-|Hr'] Hr'x; auto.
      * repeat split; auto; try lia.
        intros r' [<-|Hr'] Hr'x; [lia|]. specialize (IH r' Hr'). lia.
    + intros r' [<-|Hr']; [lia|]. specialize (Ha r' Hr'). lia.
Qed.

Lemma chercher_avant_spec (x : Z) (right : list (Z * float)) :
  StronglySorted Z.le (map fst right) ->
  match chercher_avant x right with
  | Some rf => In rf right /\ x <= fst rf /\
               forall r', In r' right -> x <= fst r' -> fst rf <= fst r'
  | None => forall r', In r' right -> fst r' < x
  end.
Proof.
  unfold chercher_avant.
  induction right as [|a rest IH]; simpl; intros HS.
  - intros r' [].
  - inversion HS as [|? ? HS' HF]; subst. specialize (IH HS').
    destruct (Z.leb_spec x (fst a)) as [Hle|Hgt].
    + repeat split; auto.
      intros r' [<-|Hr'] _; [lia|].
      rewrite Forall_forall in HF. apply HF. apply in_map; exact Hr'.
    + destruct (find (fun r => x <=? fst r) rest) as [rf|].
      * destruct IH as (Hin & Hx & Hmin). repeat split; auto.
        intros r' [<-|Hr'] Hr'x; [lia|auto].
      * intros r' [<-|Hr']; auto.
Qed.

Lemma plus_proche_lecture (x : Z) (right : list (Z * float)) :
  StronglySorted Z.le (map fst right) ->
  lecture_plus_proche right x (plus_proche x right).
Proof.
  intros HS.
  pose proof (chercher_arriere_spec x right HS) as Hb.
  pose proof (chercher_avant_spec x right HS) as Hf.
  unfold lecture_plus_proche, plus_proche.
  destruct right as [|a rest]; [reflexivity|].
  remember (a :: rest) as right eqn:Er.
  destruct (chercher_arriere x right) as [rb|],
           (chercher_avant x right) as [rf|].
  - destruct Hb as (Hbin & Hbx & Hbmax), Hf as (Hfin & Hfx & Hfmin).
    destruct (Z.leb_spec (x - fst rb) (fst rf - x)) as [Hc|Hc].
    + exists rb. repeat split; auto.
      intros r' Hr'. destruct (Z_le_gt_dec (fst r') x).
      * specialize (Hbmax r' Hr'). lia.
      * specialize (Hfmin r' Hr'). lia.
    + exists rf. repeat split; auto.
      * intros r' Hr'. destruct (Z_le_gt_dec (fst r') x).
        -- specialize (Hbmax r' Hr'). lia.
        -- specialize (Hfmin r' Hr'). lia.
      * intros r' Hr' Heq Hle. specialize (Hbmax r' Hr' Hle). lia.
  - destruct Hb as (Hbin & Hbx & Hbmax).
    exists rb. repeat split; auto.
    intros r' Hr'. specialize (Hf r' Hr'). specialize (Hbmax r' Hr'). lia.
  - destruct Hf as (Hfin & Hfx & Hfmin).
    exists rf. repeat split; auto.
    + intros r' Hr'. specialize (Hb r' Hr'). specialize (Hfmin r' Hr'). lia.
    + intros r' Hr' _ Hle. specialize (Hb r' Hr'). lia.
  - exfalso. subst right. specialize (Hb a (or_introl eq_refl)).
    specialize (Hf a (or_introl eq_refl)). lia.
Qed.

(** X2. On sorted key columns the alignment raises nothing and gives every
    power row the value of an irradiance reading whose timestamp is nearest
    to its own, the reading at or before it on a tie; without any reading
    the value is missing. *)
Theorem merge_asof_plus_proche (left : list Z) (right : list (Z * float)) :
  est_trie left = true -> est_trie (map fst right) = true ->
  exists irradiance,
    merge_asof left right = Ok irradiance /\
    Forall2 (lecture_plus_proche right) left irradiance.
Proof.
  intros Hl Hr. unfold merge_asof. rewrite Hl, Hr. simpl.
  eexists. split; [reflexivity|].
  apply est_trie_sorted in Hr.
  clear Hl. induction left as [|x left IH]; simpl; constructor; auto.
  apply plus_proche_lecture; exact Hr.
Qed.

(** Power rows at 0, 10 and 20 against readings at 1, 12 and 15. *)
Lemma merge_asof_plus_proche_witness :
  exists irradiance,
    merge_asof [0; 10; 20] [(1, Fin 0.1); (12, Fin 0.2); (15, NaN)]
    = Ok irradiance /\
    Forall2 (lecture_plus_proche [(1, Fin 0.1); (12, Fin 0.2); (15, NaN)])
            [0; 10; 20] irradiance.
Proof. apply merge_asof_plus_proche; reflexivity. Defined.

Lemma temps_tries_est_trie (l : list timestamp) :
  StronglySorted ordre_temps l -> Forall (fun t => isnat t = false) l ->
  est_trie (map valeur_temps l) = true.
Proof.
  intros HS HF. apply sorted_est_trie.
  apply StronglySorted_map.
  apply StronglySorted_impl with (R := ordre_temps); auto.
  intros a b Ha Hb Hab. rewrite Forall_forall in HF.
  specialize (HF a Ha) as Ha'. specialize (HF b Hb) as Hb'.
  destruct a, b; simpl in *; auto; discriminate.
Qed.

Lemma dans_periode_isnat (d0 d1 : Z) (t : timestamp) :
  dans_periode d0 d1 t = true -> isnat t = false.
Proof. destruct t; simpl; auto; discriminate. Qed.

Lemma meme_dtype_eq (a b : dtype_temps) : meme_dtype a b = true <-> a = b.
Proof.
  destruct a as [x|], b as [y|]; simpl; split; intros H;
    try discriminate; auto.
  - apply String.eqb_eq in H. congruence.
  - injection H as ->. apply String.eqb_refl.
Qed.

(** X3. In the global study the alignment of the filtered frames depends
    on the dtypes of the two time columns only.  When they are the same it
    raises nothing and returns one irradiance value per power row of the
    period, whatever the rows of the two files are: ingestion leaves both
    frames sorted and the date filter drops the rows without timestamp.
    When they differ (time-zone aware against naive, or two time zones) it
    raises. *)
Theorem df_merged_sans_exception (lire_nombre : string -> option Q)
  (lire_date : string -> option Z)
  (dtype_puissance dtype_irradiance : dtype_temps)
  (brut_puissance : list ligne_brute)
  (brut_irradiance : list (string * cell)) (date_debut date_fin : Z) :
  let df_puissance :=
    traiter_fichier_onduleur lire_nombre lire_date brut_puissance in
  let df_irradiance :=
    traiter_fichier_irradiance lire_nombre lire_date brut_irradiance in
  (dtype_puissance = dtype_irradiance ->
   exists irradiance,
     df_merged dtype_puissance dtype_irradiance date_debut date_fin
       df_puissance df_irradiance = Ok irradiance /\
     List.length irradiance
     = List.length (filtrer_periode date_debut date_fin df_puissance)) /\
  (dtype_puissance <> dtype_irradiance ->
   df_merged dtype_puissance dtype_irradiance date_debut date_fin
     df_puissance df_irradiance = Raise ValueError).
Proof.
  intros df_puissance df_irradiance.
  unfold df_merged, merge_asof_time.
  split.
  2:{ intros Hne.
      destruct (meme_dtype dtype_puissance dtype_irradiance) eqn:E;
        [|reflexivity].
      apply meme_dtype_eq in E. contradiction. }
  intros Heq. apply meme_dtype_eq in Heq. rewrite Heq. simpl negb. cbv iota.
  set (gauche := filtrer_periode date_debut date_fin df_puissance).
  set (droite := filtrer_irradiance date_debut date_fin df_irradiance).
  assert (Hg : Forall (fun t => isnat t = false) (map p_time gauche)).
  { rewrite Forall_forall. intros t Ht.
    apply in_map_iff in Ht as (r & <- & Hr).
    apply filter_In in Hr as [_ Hr].
    apply dans_periode_isnat in Hr; exact Hr. }
  assert (Hd : Forall (fun t => isnat t = false) (map i_time droite)).
  { rewrite Forall_forall. intros t Ht.
    apply in_map_iff in Ht as (r & <- & Hr).
    apply filter_In in Hr as [_ Hr].
    apply dans_periode_isnat in Hr; exact Hr. }
  assert (E1 : existsb isnat (map p_time gauche) = false).
  { apply not_true_is_false. intros H.
    apply existsb_exists in H as (t & Ht & Hn).
    rewrite Forall_forall in Hg. rewrite (Hg t Ht) in Hn. discriminate. }
  assert (E2 : existsb (fun r => isnat (i_time r)) droite = false).
  { apply not_true_is_false. intros H.
    apply existsb_exists in H as (r & Hr & Hn).
    rewrite Forall_forall in Hd.
    rewrite (Hd (i_time r) (in_map i_time _ _ Hr)) in Hn. discriminate. }
  rewrite E1, E2. simpl.
  assert (S1 : est_trie (map valeur_temps (map p_time gauche)) = true).
  { apply temps_tries_est_trie; auto.
    apply StronglySorted_map. apply StronglySorted_filter.
    apply nargsort_time_sorted. }
  assert (S2 : est_trie (map fst (map (fun r => (valeur_temps (i_time r),
                                                 i_irradiance r)) droite))
               = true).
  { rewrite map_map. simpl.
    rewrite <- (map_map i_time valeur_temps).
    apply temps_tries_est_trie; auto.
    apply StronglySorted_map. apply StronglySorted_filter.
    apply nargsort_time_sorted. }
  unfold merge_asof. rewrite S1, S2. simpl.
  eexists. split; [reflexivity|].
  rewrite !length_map. reflexivity.
Qed.

(** Two naive time columns, the power rows out of order and one of them
    without timestamp. *)
Lemma df_merged_sans_exception_witness :
  exists irradiance,
    df_merged None None 0 0
      (traiter_fichier_onduleur (fun _ => None) lire_date_exemple
         [{| b_time := "b"; b_strings := []; b_total := CellNum (Fin 1) |};
          {| b_time := "?"; b_strings := []; b_total := CellNum (Fin 1) |};
          {| b_time := "a"; b_strings := []; b_total := CellNum (Fin 1) |}])
      (traiter_fichier_irradiance (fun _ => None) lire_date_exemple
         [("a"%string, CellNum (Fin 0.5))])
    = Ok irradiance /\
    List.length irradiance = 2%nat.
Proof.
  destruct (df_merged_sans_exception (fun _ => None) lire_date_exemple
              None None
              [{| b_time := "b"; b_strings := []; b_total := CellNum (Fin 1) |};
               {| b_time := "?"; b_strings := []; b_total := CellNum (Fin 1) |};
               {| b_time := "a"; b_strings := []; b_total := CellNum (Fin 1) |}]
              [("a"%string, CellNum (Fin 0.5))] 0 0) as [H _].
  exact (H eq_refl).
Defined.

(* ------------------------------------------------------------------ *)
(** ** Theoretical power: exceptions and repeated strings *)

Lemma puissances_theoriques_app (irradiance : list float)
  (l1 l2 : list ligne_carac) (df0 : colonnes) :
  puissances_theoriques irradiance (l1 ++ l2) df0 =
  (df <- puissances_theoriques irradiance l1 df0 ;;
   puissances_theoriques irradiance l2 df).
Proof.
  revert df0. induction l1 as [|c l1 IH]; simpl; intros df0; auto.
  destruct (py_int (c_nombre_pv c)) as [n|e]; simpl; auto.
Qed.

Lemma fini_py_int (x : float) :
  fini x = true <-> exists m, py_int x = Ok m.
Proof.
  destruct x; simpl; split; intros H; eauto; try discriminate;
    destruct H as [m H]; discriminate.
Qed.

Lemma puissances_theoriques_ok_finis (irradiance : list float)
  (df_carac : list ligne_carac) (df0 : colonnes) :
  (exists df, puissances_theoriques irradiance df_carac df0 = Ok df) ->
  Forall (fun c => fini (c_nombre_pv c) = true) df_carac.
Proof.
  revert df0. induction df_carac as [|c rest IH]; intros df0 [df H];
    [constructor|].
  simpl in H.
  destruct (c_nombre_pv c) as [q| | |] eqn:E; simpl in H; try discriminate.
  constructor; [rewrite E; reflexivity|].
  eapply IH. eauto.
Qed.

(** X4. The loop that builds the theoretical powers ends without exception
    exactly when every string number and every panel count of the
    characteristics is a finite number; otherwise it stops at the first row
    where one is not, on the string number first: ValueError for a missing
    number or count, OverflowError for an infinite one. *)
Theorem puissances_theoriques_exception (irradiance : list float)
  (df_carac : list ligne_carac_lue) (df0 : colonnes) :
  ((exists df,
      puissances_theoriques_iterrows irradiance df_carac df0 = Ok df) <->
   Forall ligne_finie df_carac) /\
  (forall avant row apres,
     df_carac = avant ++ row :: apres ->
     Forall ligne_finie avant ->
     (l_string row = NaN ->
      puissances_theoriques_iterrows irradiance df_carac df0
      = Raise ValueError) /\
     (l_string row = PInf \/ l_string row = NInf ->
      puissances_theoriques_iterrows irradiance df_carac df0
      = Raise OverflowError) /\
     (fini (l_string row) = true -> l_nombre_pv row = NaN ->
      puissances_theoriques_iterrows irradiance df_carac df0
      = Raise ValueError) /\
     (fini (l_string row) = true ->
      l_nombre_pv row = PInf \/ l_nombre_pv row = NInf ->
      puissances_theoriques_iterrows irradiance df_carac df0
      = Raise OverflowError)).
Proof.
  split.
  - split; [apply puissances_theoriques_iterrows_ok|].
    intros H.
    destruct (puissances_theoriques_iterrows_finis irradiance df_carac H df0)
      as (df & Hdf & _). eauto.
  - intros avant row apres -> Hav.
    destruct (puissances_theoriques_iterrows_finis irradiance avant Hav df0)
      as (df & Hdf & _).
    rewrite puissances_theoriques_iterrows_app, Hdf. simpl.
    repeat split.
    + intros ->. reflexivity.
    + intros [-> | ->]; reflexivity.
    + intros Hs ->. destruct (l_string row); try discriminate. reflexivity.
    + intros Hs [-> | ->]; destruct (l_string row); try discriminate;
        reflexivity.
Qed.

(** The second of three rows has a string number that could not be read,
    and every panel count is finite. *)
Lemma puissances_theoriques_exception_witness :
  puissances_theoriques_iterrows [Fin 0.5] carac_lue_sans_numero []
  = Raise ValueError.
Proof.
  destruct (puissances_theoriques_exception [Fin 0.5]
              carac_lue_sans_numero []) as [_ H].
  destruct (H [carac_lue 1 1 1]
              {| l_string := NaN; l_puissance_unitaire := Fin 1;
                 l_nombre_pv := Fin 12 |}
              [carac_lue 3 1 1]) as (H1 & _).
  - reflexivity.
  - repeat constructor.
  - apply H1. reflexivity.
Defined.

Lemma affecter_noms (name : Z) (col : list float) (df : colonnes) :
  map fst (affecter name col df) =
  if existsb (Z.eqb name) (map fst df) then map fst df
  else map fst df ++ [name].
Proof.
  induction df as [|[n c] df IH]; simpl; auto.
  destruct (n =? name) eqn:E.
  - apply Z.eqb_eq in E; subst n. rewrite Z.eqb_refl. reflexivity.
  - rewrite Z.eqb_sym, E. simpl. rewrite IH.
    destruct (existsb (Z.eqb name) (map fst df)); reflexivity.
Qed.

Lemma affecter_NoDup (name : Z) (col : list float) (df : colonnes) :
  NoDup (map fst df) -> NoDup (map fst (affecter name col df)).
Proof.
  intros H. rewrite affecter_noms.
  destruct (existsb (Z.eqb name) (map fst df)) eqn:E; auto.
  apply NoDup_app; auto.
  - repeat constructor. intros [].
  - intros x Hx [<-|[]].
    assert (Ht : existsb (Z.eqb name) (map fst df) = true)
      by (apply existsb_exists; exists name; split; auto; apply Z.eqb_refl).
    congruence.
Qed.

Lemma affecter_In (name name' : Z) (col : list float) (df : colonnes) :
  In name' (map fst (affecter name col df)) <->
  name' = name \/ In name' (map fst df).
Proof.
  rewrite affecter_noms.
  destruct (existsb (Z.eqb name) (map fst df)) eqn:E.
  - apply existsb_exists in E as (x & Hx & Ex). apply Z.eqb_eq in Ex; subst x.
    split; auto. intros [->|H]; auto.
  - rewrite in_app_iff. simpl. intuition.
Qed.

Lemma puissances_theoriques_noms (irradiance : list float)
  (df_carac : list ligne_carac) (df0 df : colonnes) :
  puissances_theoriques irradiance df_carac df0 = Ok df ->
  (NoDup (map fst df0) -> NoDup (map fst df)) /\
  (forall name, In name (map fst df) <->
                In name (map fst df0) \/ In name (map c_string df_carac)).
Proof.
  revert df0. induction df_carac as [|c rest IH]; simpl; intros df0 H.
  - injection H as <-. split; auto. intros name. tauto.
  - destruct (py_int (c_nombre_pv c)) as [n|e]; simpl in H; [|discriminate].
    apply IH in H as [Hnd Hin]. split.
    + intros H0. apply Hnd. apply affecter_NoDup; exact H0.
    + intros name. rewrite Hin, affecter_In. intuition.
Qed.

(** X5. When the loop ends, the frame has one column per string number of
    the characteristics, and the column of a number is computed from the
    last row that carries it, with the panel count truncated to an
    integer. *)
Theorem puissances_theoriques_derniere_ligne (irradiance : list float)
  (avant apres : list ligne_carac) (row : ligne_carac) (df : colonnes) :
  puissances_theoriques irradiance (avant ++ row :: apres) [] = Ok df ->
  ~ In (c_string row) (map c_string apres) ->
  NoDup (map fst df) /\
  (forall name, In name (map fst df) <->
                In name (map c_string (avant ++ row :: apres))) /\
  exists n,
    py_int (c_nombre_pv row) = Ok n /\
    colonne (c_string row) df =
    Some (map (fun g => puissance_theorique g n (c_puissance_unitaire row))
              irradiance).
Proof.
  intros H Hlast.
  pose proof (puissances_theoriques_noms _ _ _ _ H) as [Hnd Hin].
  split; [apply Hnd; constructor|].
  split; [intros name; rewrite Hin; simpl; tauto|].
  rewrite puissances_theoriques_app in H.
  destruct (puissances_theoriques irradiance avant []) as [df1|e];
    simpl in H; [|discriminate].
  destruct (py_int (c_nombre_pv row)) as [n|e]; simpl in H; [|discriminate].
  exists n. split; auto.
  assert (Hfin : Forall (fun c => exists m, py_int (c_nombre_pv c) = Ok m)
                        apres).
  { assert (Hex : exists d, puissances_theoriques irradiance apres
                    (affecter (c_string row)
                       (map (fun g => puissance_theorique g n
                                        (c_puissance_unitaire row)) irradiance)
                       df1) = Ok d) by eauto.
    apply puissances_theoriques_ok_finis in Hex.
    eapply Forall_impl; [|exact Hex]. intros c Hc.
    apply fini_py_int; exact Hc. }
  destruct (puissances_theoriques_spec irradiance apres Hfin
              (affecter (c_string row)
                 (map (fun g => puissance_theorique g n
                                  (c_puissance_unitaire row)) irradiance) df1))
    as (df' & Hdf' & Hkeep & _).
  rewrite Hdf' in H. injection H as <-.
  rewrite (Hkeep _ Hlast). apply colonne_affecter_eq.
Qed.

(** String 1 is numbered twice: the second row, 2.5 panels of unit power 2,
    gives the column, with 2 panels. *)
Lemma puissances_theoriques_derniere_ligne_witness :
  NoDup (map fst df_doublon) /\
  (forall name, In name (map fst df_doublon) <->
                In name (map c_string carac_doublon)) /\
  exists n,
    py_int (Fin 2.5) = Ok n /\
    colonne 1 df_doublon =
    Some (map (fun g => puissance_theorique g n (Fin 2)) [Fin 0.5]).
Proof.
  apply (puissances_theoriques_derniere_ligne [Fin 0.5] [carac 1 1 1] []
           (carac 1 2 2.5) df_doublon).
  - reflexivity.
  - simpl. tauto.
Defined.

(* ------------------------------------------------------------------ *)
(** ** Energy: the two studies agree *)

Lemma fmul_fadd_distr (a b : float) (q : Q) :
  (0 < q)%Q ->
  float_eq (fmul (fadd a b) (Fin q)) (fadd (fmul a (Fin q)) (fmul b (Fin q))).
Proof.
  intros Hq.
  assert (Hc : Qcompare q 0 = Gt) by (apply Qgt_alt; exact Hq).
  destruct a, b; simpl; unfold inf_signe; rewrite ?Hc; simpl; auto.
  apply Qmult_plus_distr_l.
Qed.

Lemma masquer_fmul (x : float) (q : Q) :
  (0 < q)%Q ->
  float_eq (masquer (fmul x (Fin q))) (fmul (masquer x) (Fin q)).
Proof.
  intros Hq.
  assert (Hc : Qcompare q 0 = Gt) by (apply Qgt_alt; exact Hq).
  destruct x; simpl; unfold inf_signe; rewrite ?Hc; simpl; auto.
  - reflexivity.
  - symmetry. apply Qmult_0_l.
Qed.

(** A sum scaled by a positive constant is the sum of the scaled values. *)
Lemma nansum_fmul (l : list float) (q : Q) :
  (0 < q)%Q ->
  float_eq (fmul (nansum l) (Fin q)) (nansum (map (fun x => fmul x (Fin q)) l)).
Proof.
  intros Hq. induction l as [|x l IH].
  - simpl. apply Qmult_0_l.
  - simpl map. rewrite (nansum_cons (fmul x (Fin q))).
    rewrite (fmul_proper_l _ _ (Fin q) (nansum_cons x l)).
    rewrite fmul_fadd_distr by exact Hq.
    apply fadd_proper; [symmetry; apply masquer_fmul; exact Hq | exact IH].
Qed.

Lemma filter_map_time (f : ligne_puissance -> ligne_puissance)
  (p : timestamp -> bool) (l : list ligne_puissance) :
  (forall r, p_time (f r) = p_time r) ->
  filter (fun r => p (p_time r)) (map f l)
  = map f (filter (fun r => p (p_time r)) l).
Proof.
  intros Hf. induction l as [|r l IH]; simpl; auto.
  rewrite Hf. destruct (p (p_time r)); simpl; rewrite IH; reflexivity.
Qed.

Lemma filtrer_en_kW (d0 d1 : Z) (df : list ligne_puissance) :
  filtrer_periode d0 d1 (en_kW df) = en_kW (filtrer_periode d0 d1 df).
Proof.
  unfold filtrer_periode, en_kW.
  apply (filter_map_time _ (dans_periode d0 d1)). reflexivity.
Qed.

Lemma colonne_string_puissances_reelles (j : nat) (df : list ligne_puissance) :
  colonne_string j (puissances_reelles df) = colonne_string j (en_kW df).
Proof.
  unfold colonne_string, puissances_reelles, en_kW.
  rewrite !map_map. reflexivity.
Qed.

(** X6. The energy of a string shown by the global study (the sum of the
    powers of the period, then times 10/60) is the energy the performance
    study divides by the capacity (the sum of the powers times 10/60), in
    exact arithmetic; missing powers are left out of both. *)
Theorem energie_reelle_energie_periode (df_puissance : list ligne_puissance)
  (j : nat) (date_debut date_fin : Z) :
  float_eq
    (energie_reelle j (filtrer_periode date_debut date_fin df_puissance))
    (energie_periode df_puissance j date_debut date_fin).
Proof.
  unfold energie_reelle, energie_periode, energie_string, dix_minutes.
  rewrite colonne_string_puissances_reelles, filtrer_en_kW.
  apply nansum_fmul. reflexivity.
Qed.

(** X7. The comparison between inverters, which filters the dates before
    it converts to kW, builds for an inverter the very ratio table of the
    study of that inverter. *)
Theorem comparaison_meme_table (nb_strings : nat) (date_debut date_fin : Z)
  (df_puissance : list ligne_puissance) (df_carac : list ligne_carac) :
  df_resultats
    (energie_totale_comparaison nb_strings date_debut date_fin df_puissance)
    df_carac
  = df_resultats
      (energie_totale_onduleur nb_strings date_debut date_fin df_puissance)
      df_carac.
Proof.
  unfold energie_totale_comparaison, energie_totale_onduleur.
  rewrite filtrer_en_kW. reflexivity.
Qed.

(* ------------------------------------------------------------------ *)
(** ** Shape of the ratio table *)

Lemma numeroter_fst (i : Z) (l : list float) :
  map fst (numeroter i l)
  = map (fun j => i + Z.of_nat j) (seq 0 (List.length l)).
Proof.
  revert i. induction l as [|e l IH]; intros i; simpl; auto.
  f_equal; [lia|].
  rewrite IH, <- seq_shift, map_map.
  apply map_ext. intros j. lia.
Qed.

Lemma numeroter_snd (i : Z) (l : list float) : map snd (numeroter i l) = l.
Proof.
  revert i. induction l as [|e l IH]; intros i; simpl; auto.
  rewrite IH; reflexivity.
Qed.

Lemma merge_left_unique (string : Z) (energie : float)
  (df_carac : list ligne_carac) :
  NoDup (map c_string df_carac) ->
  exists capacite, merge_left string energie df_carac
                   = [ligne string energie capacite].
Proof.
  intros Hnd. unfold merge_left.
  induction df_carac as [|c rest IH]; simpl; eauto.
  inversion Hnd as [|? ? Hnotin Hnd']; subst.
  destruct (c_string c =? string) eqn:E.
  - apply Z.eqb_eq in E.
    assert (Hnil : filter (fun c0 => c_string c0 =? string) rest = []).
    { destruct (filter (fun c0 => c_string c0 =? string) rest) as [|c' l] eqn:F;
        auto.
      exfalso. apply Hnotin.
      assert (Hin : In c' (filter (fun c0 => c_string c0 =? string) rest))
        by (rewrite F; left; reflexivity).
      apply filter_In in Hin as [Hin Hs]. apply Z.eqb_eq in Hs.
      rewrite E, <- Hs. apply in_map; exact Hin. }
    rewrite Hnil. simpl. eauto.
  - apply IH; exact Hnd'.
Qed.

Lemma flat_map_merge_left (df_carac : list ligne_carac)
  (l : list (Z * float)) :
  NoDup (map c_string df_carac) ->
  map r_string (flat_map (fun ie => merge_left (fst ie) (snd ie) df_carac) l)
  = map fst l /\
  map r_energie (flat_map (fun ie => merge_left (fst ie) (snd ie) df_carac) l)
  = map snd l.
Proof.
  intros Hnd. induction l as [|ie l IH]; simpl; [split; reflexivity|].
  destruct IH as [IH1 IH2]. destruct ie as [i e].
  destruct (merge_left_unique i e df_carac Hnd) as (cap & Hm).
  simpl. rewrite Hm. simpl. rewrite IH1, IH2. auto.
Qed.

(** X8. When the characteristics number each string at most once, the
    ratio table has exactly one row per string of the power file, in the
    order of the file: strings 1 to N with their energies. *)
Theorem df_resultats_une_ligne_par_string (energies : list float)
  (df_carac : list ligne_carac) :
  NoDup (map c_string df_carac) ->
  map r_string (df_resultats energies df_carac)
  = map (fun j => 1 + Z.of_nat j) (seq 0 (List.length energies)) /\
  map r_energie (df_resultats energies df_carac) = energies.
Proof.
  intros Hnd.
  destruct (flat_map_merge_left df_carac (numeroter 1 energies) Hnd)
    as [H1 H2].
  unfold df_resultats. rewrite H1, H2.
  rewrite numeroter_fst, numeroter_snd. auto.
Qed.

(** The four sample strings. *)
Lemma df_resultats_une_ligne_par_string_witness :
  map r_string df_quatre = [1; 2; 3; 4] /\
  map r_energie df_quatre = energies_quatre.
Proof.
  apply (df_resultats_une_ligne_par_string energies_quatre carac_quatre).
  repeat constructor; simpl; intuition discriminate.
Defined.

(* ------------------------------------------------------------------ *)
(** ** Monthly evolution *)

Lemma ajouter_cle_In (m x : Z) (l : list Z) :
  In x (ajouter_cle m l) <-> x = m \/ In x l.
Proof.
  induction l as [|y l IH]; simpl.
  - intuition.
  - destruct (Z.ltb_spec m y); simpl; [intuition|].
    destruct (Z.eqb_spec m y); simpl.
    + subst. intuition.
    + rewrite IH. intuition.
Qed.

Lemma ajouter_cle_sorted (m : Z) (l : list Z) :
  StronglySorted Z.lt l -> StronglySorted Z.lt (ajouter_cle m l).
Proof.
  induction 1 as [|y l HS IH HF]; simpl.
  - repeat constructor.
  - destruct (Z.ltb_spec m y).
    + constructor; [constructor; auto|].
      constructor; auto.
      rewrite Forall_forall in *. intros z Hz. specialize (HF z Hz). lia.
    + destruct (Z.eqb_spec m y); [constructor; auto|].
      constructor; auto.
      rewrite Forall_forall in *. intros z Hz.
      apply ajouter_cle_In in Hz as [->|Hz]; [lia|auto].
Qed.

Lemma cles_groupes_In (cles : list Z) (x : Z) :
  In x (cles_groupes cles) <-> In x cles.
Proof.
  induction cles as [|m l IH]; simpl; [tauto|].
  rewrite ajouter_cle_In, IH. intuition.
Qed.

Lemma cles_groupes_sorted (cles : list Z) :
  StronglySorted Z.lt (cles_groupes cles).
Proof.
  induction cles as [|m l IH]; simpl; [constructor|].
  apply ajouter_cle_sorted; exact IH.
Qed.

Lemma sorted_lt_NoDup (l : list Z) : StronglySorted Z.lt l -> NoDup l.
Proof.
  induction 1 as [|y l HS IH HF]; constructor; auto.
  intros Hin. rewrite Forall_forall in HF. specialize (HF y Hin). lia.
Qed.

(** Sums taken group by group add up to the sum over the rows whose key
    is one of the groups. *)
Lemma somme_par_groupe {A : Type} (v : A -> float) (cle : A -> Z)
  (l : list A) (ks : list Z) :
  NoDup ks ->
  float_eq
    (somme (map (fun m => nansum (map v (filter (fun r => cle r =? m) l))) ks))
    (nansum (map v (filter (fun r => existsb (Z.eqb (cle r)) ks) l))).
Proof.
  induction 1 as [|m ks Hm Hnd IH].
  - simpl. replace (filter (fun _ => false) l) with (@nil A).
    + reflexivity.
    + induction l; simpl; auto.
  - simpl map. rewrite somme_cons, IH.
    symmetry. apply nansum_filter_partition.
    + intros r. reflexivity.
    + intros r. destruct (Z.eqb_spec (cle r) m); simpl; auto.
      apply not_true_is_false. intros He.
      apply existsb_exists in He as (x & Hx & Ex).
      apply Z.eqb_eq in Ex. apply Hm. congruence.
Qed.

Lemma filter_tout {A : Type} (p : A -> bool) (l : list A) :
  (forall a, In a l -> p a = true) -> filter p l = l.
Proof.
  induction l as [|a l IH]; simpl; intros H; auto.
  rewrite (H a (or_introl eq_refl)), IH; auto.
Qed.

Lemma energie_totale_nth (nb_strings j : nat) (df : list ligne_puissance) :
  (j < nb_strings)%nat ->
  nth j (energie_totale nb_strings df) NaN = energie_string j df.
Proof.
  intros Hj. unfold energie_totale.
  rewrite (nth_indep _ NaN (energie_string 0 df))
    by (rewrite length_map, length_seq; exact Hj).
  rewrite (map_nth (fun j => energie_string j df)).
  rewrite seq_nth by exact Hj. reflexivity.
Qed.

Lemma df_mensuel_somme_string (to_period_M : Z -> Z) (nb_strings j : nat)
  (df : list ligne_puissance) :
  (j < nb_strings)%nat ->
  float_eq
    (somme (map (fun row => nth j (snd row) NaN)
                (df_mensuel to_period_M nb_strings df)))
    (energie_string j df).
Proof.
  intros Hj. unfold df_mensuel. rewrite map_map. simpl.
  rewrite (map_ext _ (fun m => energie_string j (groupe to_period_M m df)))
    by (intros m; apply energie_totale_nth; exact Hj).
  unfold energie_string, colonne_string, groupe.
  rewrite (map_ext _
    (fun m => nansum (map (fun r => fmul (nth j (p_strings r) NaN) dix_minutes)
                          (filter (fun r => year_month to_period_M r =? m) df))))
    by (intros m; rewrite map_map; reflexivity).
  rewrite somme_par_groupe
    by (apply sorted_lt_NoDup, cles_groupes_sorted).
  rewrite filter_tout.
  - rewrite map_map. reflexivity.
  - intros r Hr. apply existsb_exists.
    exists (year_month to_period_M r). split; [|apply Z.eqb_refl].
    apply cles_groupes_In. apply in_map; exact Hr.
Qed.

(** X9. The table of the monthly evolution has one row per month present
    in the period, in ascending order, and for every string the monthly
    energies add up to the energy of the string over the period (exact
    arithmetic). *)
Theorem df_mensuel_somme (to_period_M : Z -> Z) (nb_strings : nat)
  (df : list ligne_puissance) :
  StronglySorted Z.lt (map fst (df_mensuel to_period_M nb_strings df)) /\
  (forall m, In m (map fst (df_mensuel to_period_M nb_strings df)) <->
             exists r, In r df /\ year_month to_period_M r = m) /\
  (forall j, (j < nb_strings)%nat ->
     float_eq
       (somme (map (fun row => nth j (snd row) NaN)
                   (df_mensuel to_period_M nb_strings df)))
       (energie_string j df)).
Proof.
  split; [|split].
  - unfold df_mensuel. rewrite map_map. simpl. rewrite map_id.
    apply cles_groupes_sorted.
  - intros m. unfold df_mensuel. rewrite map_map. simpl. rewrite map_id.
    rewrite cles_groupes_In, in_map_iff.
    split; intros (r & H1 & H2); exists r; auto.
  - intros j Hj. apply df_mensuel_somme_string; exact Hj.
Qed.

Lemma flat_map_nil {A B : Type} (f : A -> list B) (l : list A) :
  flat_map f l = [] <-> forall a, In a l -> f a = [].
Proof.
  induction l as [|a l IH]; simpl.
  - split; auto. intros _ a [].
  - split.
    + intros H. apply app_eq_nil in H as [Ha Hl].
      intros b [<-|Hb]; auto. apply IH; auto.
    + intros H. rewrite (H a (or_introl eq_refl)). simpl.
      apply IH. intros b Hb. apply H; auto.
Qed.

Lemma filter_nil {A : Type} (p : A -> bool) (l : list A) :
  filter p l = [] <-> forall a, In a l -> p a = false.
Proof.
  induction l as [|a l IH]; simpl.
  - split; auto. intros _ a [].
  - destruct (p a) eqn:E; split.
    + discriminate.
    + intros H. specialize (H a (or_introl eq_refl)). congruence.
    + intros H b [<-|Hb]; auto. apply IH; auto.
    + intros H. apply IH. intros b Hb. apply H; auto.
Qed.

Lemma ratios_string_nil (mensuel : list (Z * list float))
  (df_carac : list ligne_carac) (j : nat) :
  ratios_string mensuel df_carac j = [] <->
  forall c, In c df_carac -> c_string c <> Z.of_nat (S j).
Proof.
  unfold ratios_string.
  destruct (filter (fun c => c_string c =? Z.of_nat (S j)) df_carac)
    as [|c0 l] eqn:E.
  - split; auto. intros _ c Hc.
    apply (proj1 (filter_nil _ _) E) in Hc. apply Z.eqb_neq; exact Hc.
  - split; [discriminate|]. intros H. exfalso.
    assert (Hin : In c0 (filter (fun c => c_string c =? Z.of_nat (S j))
                                df_carac)) by (rewrite E; left; reflexivity).
    apply filter_In in Hin as [Hin Hs]. apply Z.eqb_eq in Hs.
    apply (H c0 Hin Hs).
Qed.

(** X10. The monthly ratio table leaves out the strings that have no
    characteristics row and raises ValueError ([pd.concat] on an empty
    list) exactly when no string of the power file has one.  Otherwise the
    table holds, for each string that has characteristics and each month,
    a row whose ratio is the monthly energy divided by the capacity of the
    first characteristics row of the string; and it holds nothing else. *)
Theorem df_ratios_issue (to_period_M : Z -> Z) (nb_strings : nat)
  (df : list ligne_puissance) (df_carac : list ligne_carac) :
  (df_ratios to_period_M nb_strings df df_carac = Raise ValueError <->
   forall j c, (j < nb_strings)%nat -> In c df_carac ->
               c_string c <> Z.of_nat (S j)) /\
  (forall j c reste row,
     (j < nb_strings)%nat ->
     filter (fun c => c_string c =? Z.of_nat (S j)) df_carac = c :: reste ->
     In row (df_mensuel to_period_M nb_strings df) ->
     exists table,
       df_ratios to_period_M nb_strings df df_carac = Ok table /\
       In {| m_year_month := fst row;
             m_energie := nth j (snd row) NaN;
             m_ratio := fdiv (nth j (snd row) NaN) (puissance_installee c);
             m_string := Z.of_nat (S j) |} table) /\
  (forall table lm,
     df_ratios to_period_M nb_strings df df_carac = Ok table ->
     In lm table ->
     exists c, In c df_carac /\ c_string c = m_string lm /\
               m_ratio lm = fdiv (m_energie lm) (puissance_installee c)).
Proof.
  unfold df_ratios, pd_concat, ratios_mensuels.
  set (mensuel := df_mensuel to_period_M nb_strings df).
  split; [|split].
  - destruct (flat_map (ratios_string mensuel df_carac) (seq 0 nb_strings))
      as [|t l] eqn:E.
    + split; auto. intros _ j c Hj Hc.
      apply (proj1 (flat_map_nil _ _)) with (a := j) in E.
      * apply (proj1 (ratios_string_nil _ _ _) E c Hc).
      * apply in_seq. lia.
    + split; [discriminate|]. intros H. exfalso.
      assert (Hnil : flat_map (ratios_string mensuel df_carac)
                              (seq 0 nb_strings) = []).
      { apply flat_map_nil. intros j Hj. apply in_seq in Hj.
        apply ratios_string_nil. intros c Hc. apply H; auto. lia. }
      congruence.
  - intros j c reste row Hj Hf Hrow.
    set (t := map (fun row =>
                     {| m_year_month := fst row;
                        m_energie := nth j (snd row) NaN;
                        m_ratio := fdiv (nth j (snd row) NaN)
                                        (puissance_installee c);
                        m_string := Z.of_nat (S j) |}) mensuel).
    assert (Ht : In t (flat_map (ratios_string mensuel df_carac)
                                (seq 0 nb_strings))).
    { apply in_flat_map. exists j. split; [apply in_seq; lia|].
      unfold ratios_string. rewrite Hf. left. reflexivity. }
    destruct (flat_map (ratios_string mensuel df_carac) (seq 0 nb_strings))
      as [|t0 l] eqn:E; [contradiction|].
    eexists. split; [reflexivity|].
    apply in_concat. exists t. split; auto.
    unfold t. apply in_map_iff. exists row. split; [reflexivity|exact Hrow].
  - intros table lm Ht Hlm.
    destruct (flat_map (ratios_string mensuel df_carac) (seq 0 nb_strings))
      as [|t0 l] eqn:E; [discriminate|].
    injection Ht as <-. change (In lm (concat (t0 :: l))) in Hlm.
    rewrite <- E in Hlm.
    apply in_concat in Hlm as (t & Ht & Hlm).
    apply in_flat_map in Ht as (j & _ & Ht).
    unfold ratios_string in Ht.
    destruct (filter (fun c => c_string c =? Z.of_nat (S j)) df_carac)
      as [|c reste] eqn:F; [contradiction|].
    destruct Ht as [<-|[]].
    apply in_map_iff in Hlm as (row & <- & _).
    assert (Hc : In c (filter (fun c => c_string c =? Z.of_nat (S j))
                              df_carac)) by (rewrite F; left; reflexivity).
    apply filter_In in Hc as [Hc Hs]. apply Z.eqb_eq in Hs.
    exists c. simpl. auto.
Qed.

(** One string over the two sample days, with its characteristics: the
    table holds its row for the month of the samples. *)
Lemma df_ratios_issue_witness :
  exists table,
    df_ratios mois_trente_jours 1 (en_kW puissance_deux_jours) [carac 1 2 1]
    = Ok table /\
    In {| m_year_month := 0;
          m_energie := energie_string 0 (en_kW puissance_deux_jours);
          m_ratio := fdiv (energie_string 0 (en_kW puissance_deux_jours))
                          (puissance_installee (carac 1 2 1));
          m_string := 1 |} table.
Proof.
  apply (proj1 (proj2 (df_ratios_issue mois_trente_jours 1
                         (en_kW puissance_deux_jours) [carac 1 2 1]))
           0%nat (carac 1 2 1) []
           (0, [energie_string 0 (en_kW puissance_deux_jours)])).
  - lia.
  - reflexivity.
  - left. reflexivity.
Defined.
(* ------------------------------------------------------------------ *)
(** ** Detector: how the loop ends *)

Section BoucleIssue.

Variable racine : Q -> Q.
Variable df_carac : list ligne_carac.

Lemma boucle_complet (df rows : list ligne_resultat)
  (alertes fin : list alerte) :
  boucle racine df_carac df rows alertes = (fin, None) ->
  exists nouvelles,
    fin = alertes ++ nouvelles /\
    Forall2 (fun row a => analyser racine df_carac df row = Ok a)
            rows nouvelles.
Proof.
  revert alertes. induction rows as [|row rest IH]; simpl; intros alertes H.
  - injection H as <-. exists []. rewrite app_nil_r. split; auto.
  - destruct (analyser racine df_carac df row) as [a|e] eqn:E;
      [|discriminate].
    apply IH in H as (nouvelles & -> & HF).
    exists (a :: nouvelles). rewrite <- app_assoc. split; auto.
Qed.

Lemma boucle_issue (df rows : list ligne_resultat) (alertes : list alerte) :
  (forall row, In row rows -> exists ratios, pairs df_carac df row = Ok ratios) ->
  (snd (boucle racine df_carac df rows alertes) = None <->
   forall row, In row rows -> pairs df_carac df row <> Ok []) /\
  (snd (boucle racine df_carac df rows alertes) = None \/
   snd (boucle racine df_carac df rows alertes) = Some ValueError).
Proof.
  revert alertes. induction rows as [|row rest IH]; simpl; intros alertes Hp.
  - split; [split; [intros _ row []|reflexivity] | left; reflexivity].
  - destruct (Hp row (or_introl eq_refl)) as (ratios & Hr).
    destruct ratios as [|x ratios].
    + rewrite (analyser_sans_pairs racine df_carac df row Hr). simpl.
      split; auto. split; [discriminate|].
      intros H. exfalso. apply (H row); auto.
    + assert (Hne : x :: ratios <> []) by discriminate.
      rewrite (analyser_pairs racine df_carac df row _ Hr Hne).
      destruct (IH (alertes ++ [{|
                  a_string := r_string row;
                  a_ecart := Fmt2f (ecart_pct (x :: ratios) (r_ratio row));
                  a_message := if flt (r_ratio row)
                                      (seuil_alerte racine (x :: ratios))
                               then Anormal else Acceptable |}]))
        as [[I1 I2] I3].
      { intros r Hin. apply Hp; auto. }
      split; auto. split.
      * intros H r [<-|Hin]; [congruence|]. apply I1; auto.
      * intros H. apply I2. intros r Hin. apply H; auto.
Qed.

End BoucleIssue.

(** X11. When the loop of the detector runs to its end, the alert table
    has one row per string below the global mean, in the order of the
    ratio table, each being what the analysis of that string returned. *)
Theorem detecter_complet (racine : Q -> Q) (df_carac : list ligne_carac)
  (df : list ligne_resultat) (alertes : list alerte) :
  detecter racine df_carac df = (alertes, None) ->
  map a_string alertes = map r_string (strings_sous_moyenne df) /\
  Forall2 (fun row a => analyser racine df_carac df row = Ok a)
          (strings_sous_moyenne df) alertes.
Proof.
  unfold detecter. intros H.
  apply boucle_complet in H as (nouvelles & -> & HF). simpl.
  split; auto.
  induction HF as [|row a rows l Ha HF IH]; simpl; auto.
  rewrite IH. f_equal. apply analyser_string in Ha. exact Ha.
Qed.

(** The four sample strings: strings 3 and 4 are below the mean and are
    the two alerts. *)
Lemma detecter_complet_witness :
  map a_string (fst (detecter racine_approx carac_quatre df_quatre))
  = map r_string (strings_sous_moyenne df_quatre) /\
  Forall2 (fun row a => analyser racine_approx carac_quatre df_quatre row = Ok a)
          (strings_sous_moyenne df_quatre)
          (fst (detecter racine_approx carac_quatre df_quatre)).
Proof.
  apply detecter_complet. vm_compute. reflexivity.
Defined.

(** X12. On the ratio table of an inverter the loop of the detector
    either runs to its end or raises ValueError, never anything else; it
    runs to its end exactly when every string below the global mean has at
    least one peer ratio. *)
Theorem detecter_issue (racine : Q -> Q) (energies : list float)
  (df_carac : list ligne_carac) :
  let df := df_resultats energies df_carac in
  (snd (detecter racine df_carac df) = None <->
   forall row, In row (strings_sous_moyenne df) ->
               pairs df_carac df row <> Ok []) /\
  (snd (detecter racine df_carac df) = None \/
   snd (detecter racine df_carac df) = Some ValueError).
Proof.
  intros df. unfold detecter. apply boucle_issue.
  intros row Hrow. apply (pairs_ok df_carac energies row Hrow).
Qed.
(* ------------------------------------------------------------------ *)
(** ** A table with a single string *)

(** The mean of a single value is not above that value. *)
Lemma flt_nanmean_singleton (x : float) : flt x (nanmean [x]) = false.
Proof.
  destruct x as [q| | |]; try reflexivity.
  unfold nanmean, compter, nansum, somme, flt. simpl.
  assert (E : Qcompare q ((0 + q) / inject_Z 1) = Eq).
  { apply Qeq_alt. field. }
  rewrite E. reflexivity.
Qed.

(** X13. A ratio table with at most one row has no row strictly below the
    global mean, which is then the ratio of the row itself or is missing:
    the detector produces no alert and raises nothing. *)
Theorem une_string_sans_alerte (racine : Q -> Q)
  (df_carac : list ligne_carac) (df : list ligne_resultat) :
  (List.length df <= 1)%nat ->
  strings_sous_moyenne df = [] /\
  detecter racine df_carac df = ([], None).
Proof.
  intros Hlen.
  assert (H : strings_sous_moyenne df = []).
  { destruct df as [|r [|r' df]]; [reflexivity| |simpl in Hlen; lia].
    unfold strings_sous_moyenne, moyenne_globale. simpl.
    rewrite flt_nanmean_singleton. reflexivity. }
  split; [exact H|].
  unfold detecter. rewrite H. reflexivity.
Qed.

(** A table with the single string 1. *)
Lemma une_string_sans_alerte_witness :
  detecter racine_approx [carac 1 1 1] (df_resultats [Fin 4] [carac 1 1 1])
  = ([], None).
Proof.
  apply (une_string_sans_alerte racine_approx [carac 1 1 1]
           (df_resultats [Fin 4] [carac 1 1 1])).
  simpl. lia.
Defined.

(* ------------------------------------------------------------------ *)
(** ** Ordering of the string labels *)

Lemma debut_chiffres_string_of_uint (d : Decimal.uint) :
  debut_chiffres (DecimalString.NilEmpty.string_of_uint d)
  = DecimalString.NilEmpty.string_of_uint d.
Proof. induction d; simpl; try rewrite IHd; reflexivity. Qed.

Lemma re_search_string_of_uint (d : Decimal.uint) :
  d <> Decimal.Nil ->
  re_search_chiffres (DecimalString.NilEmpty.string_of_uint d)
  = Some (DecimalString.NilEmpty.string_of_uint d).
Proof.
  intros Hd. destruct d; try (contradiction Hd; reflexivity);
    simpl; rewrite debut_chiffres_string_of_uint; reflexivity.
Qed.

Lemma to_uint_non_nil (i : N) : N.to_uint i <> Decimal.Nil.
Proof.
  destruct i as [|p]; simpl.
  - discriminate.
  - apply DecimalPos.Unsigned.to_uint_nonnil.
Qed.

Lemma extract_num_label (i : N) : extract_num (label_string i) = Num i.
Proof.
  unfold extract_num, label_string. simpl.
  rewrite (re_search_string_of_uint _ (to_uint_non_nil i)).
  unfold int_chiffres.
  rewrite DecimalString.NilEmpty.usu, DecimalN.Unsigned.of_to. reflexivity.
Qed.

(** X14. The sort key of the label of string [i] is [i] itself, whatever
    the number of digits, and the label "total" has the infinite key. *)
Theorem extract_num_label_string :
  (forall i, extract_num (label_string i) = Num i) /\
  extract_num "total" = Infini /\
  (forall i j, label_string i = label_string j -> i = j).
Proof.
  split; [exact extract_num_label|]. split; [reflexivity|].
  intros i j H.
  assert (E : Num i = Num j)
    by (rewrite <- (extract_num_label i), <- (extract_num_label j), H;
        reflexivity).
  injection E as E; exact E.
Qed.

Lemma lt_cle_asym (a b : cle_tri) : lt_cle a b = true -> lt_cle b a = false.
Proof.
  destruct a, b; simpl; auto; try discriminate.
  intros H. apply N.ltb_lt in H. apply N.ltb_ge. lia.
Qed.

Lemma lt_cle_negtrans (a b c : cle_tri) :
  lt_cle b a = false -> lt_cle c b = false -> lt_cle c a = false.
Proof.
  destruct a, b, c; simpl; auto; try discriminate.
  intros H1 H2. apply N.ltb_ge in H1, H2. apply N.ltb_ge. lia.
Qed.

Lemma trier_sorted (l : list string) :
  StronglySorted (pas_apres extract_num lt_cle) (trier_strings_par_numero l).
Proof.
  apply argsort_sorted with (dom := fun _ => True).
  - intros a b _ _. apply lt_cle_asym.
  - intros a b c _ _ _. apply lt_cle_negtrans.
  - rewrite Forall_forall; auto.
Qed.

(** X15. The sort returns the labels it was given, each as many times,
    in an order where no label stands before a label of smaller number;
    labels without number come after all the numbered ones. *)
Theorem trier_strings_par_numero_ordre (liste_strings : list string) :
  Permutation (trier_strings_par_numero liste_strings) liste_strings /\
  StronglySorted
    (fun a b => lt_cle (extract_num b) (extract_num a) = false)
    (trier_strings_par_numero liste_strings) /\
  (forall avant a apres,
     trier_strings_par_numero liste_strings = avant ++ a :: apres ->
     extract_num a = Infini ->
     forall b, In b apres -> extract_num b = Infini).
Proof.
  split; [apply argsort_perm|]. split; [apply trier_sorted|].
  intros avant a apres E Ha b Hb.
  pose proof (trier_sorted liste_strings) as HS. rewrite E in HS.
  apply StronglySorted_app_inv in HS as (_ & HS & _).
  inversion HS as [|? ? _ HF]; subst.
  rewrite Forall_forall in HF. specialize (HF b Hb).
  unfold pas_apres in HF. rewrite Ha in HF.
  destruct (extract_num b); auto; discriminate.
Qed.

Lemma StronglySorted_map_inv {A B : Type} (R : B -> B -> Prop) (f : A -> B)
  (l : list A) :
  StronglySorted R (map f l) -> StronglySorted (fun a b => R (f a) (f b)) l.
Proof.
  induction l as [|a l IH]; simpl; intros H; [constructor|].
  inversion H as [|? ? HS HF]; subst. constructor; auto.
  rewrite Forall_forall in *. intros b Hb. apply HF. apply in_map; exact Hb.
Qed.

(** X16. Given the labels of the strings of an inverter and the label
    "total", in any order, the sort returns the string labels by
    increasing number (string 2 before string 10) followed by "total". *)
Theorem trier_labels_et_total (numeros : list N) (noms : list string) :
  Permutation noms ("total"%string :: map label_string numeros) ->
  exists tries,
    trier_strings_par_numero noms
    = map label_string tries ++ ["total"%string] /\
    Permutation tries numeros /\
    StronglySorted N.le tries.
Proof.
  intros HP.
  pose proof (trier_sorted noms) as HS.
  assert (HP' : Permutation (trier_strings_par_numero noms)
                            ("total"%string :: map label_string numeros)).
  { eapply Permutation_trans; [apply argsort_perm|exact HP]. }
  assert (Hin : In "total"%string (trier_strings_par_numero noms)).
  { apply (Permutation_in _ (Permutation_sym HP')). left; reflexivity. }
  apply in_split in Hin as (t1 & t2 & E).
  rewrite E in HS, HP'.
  assert (Hrest : Permutation (t1 ++ t2) (map label_string numeros)).
  { apply Permutation_cons_inv with (a := "total"%string).
    eapply Permutation_trans; [apply Permutation_middle|exact HP']. }
  assert (Ht2 : t2 = []).
  { destruct t2 as [|b t2]; auto. exfalso.
    assert (Hb : In b (map label_string numeros)).
    { apply (Permutation_in _ Hrest). apply in_or_app. right. left.
      reflexivity. }
    apply in_map_iff in Hb as (i & <- & _).
    apply StronglySorted_app_inv in HS as (_ & HS & _).
    inversion HS as [|? ? _ HF]; subst.
    inversion HF as [|? ? Hb _]; subst.
    unfold pas_apres in Hb. rewrite extract_num_label in Hb.
    discriminate. }
  subst t2. rewrite app_nil_r in Hrest.
  apply Permutation_map_inv in Hrest as (tries & Et & Hp).
  exists tries. rewrite E, Et. repeat split; auto.
  - apply Permutation_sym; exact Hp.
  - apply StronglySorted_app_inv in HS as (HS & _ & _).
    rewrite Et in HS. apply StronglySorted_map_inv in HS.
    apply StronglySorted_impl with (2 := HS).
    intros a b _ _ Hab. unfold pas_apres in Hab.
    rewrite !extract_num_label in Hab. simpl in Hab.
    apply N.ltb_ge in Hab. exact Hab.
Qed.

(** The columns of an inverter with strings 1, 2 and 10, in the order of
    the text: "string 1", "string 10", "string 2", "total". *)
Lemma trier_labels_et_total_witness :
  exists tries,
    trier_strings_par_numero
      [label_string 1; label_string 10; label_string 2; "total"%string]
    = map label_string tries ++ ["total"%string] /\
    Permutation tries [1; 10; 2]%N /\
    StronglySorted N.le tries.
Proof.
  apply (trier_labels_et_total [1; 10; 2]%N).
  change [label_string 1; label_string 10; label_string 2; "total"%string]
    with (map label_string [1; 10; 2]%N ++ ["total"%string]).
  apply Permutation_sym, Permutation_cons_append.
Defined.

(* ------------------------------------------------------------------ *)
(** ** File names and extensions *)

Lemma rfind_depuis_app (c : ascii) (l1 l2 : list ascii) (i t : Z) :
  rfind_depuis c (l1 ++ l2) i t
  = rfind_depuis c l2 (i + Z.of_nat (List.length l1)) (rfind_depuis c l1 i t).
Proof.
  revert i t. induction l1 as [|x l1 IH]; intros i t; simpl.
  - rewrite Z.add_0_r. reflexivity.
  - rewrite IH. f_equal. lia.
Qed.

Lemma rfind_depuis_cas (c : ascii) (l : list ascii) (i t : Z) :
  (~ In c l /\ rfind_depuis c l i t = t) \/
  (exists l1 l2, l = l1 ++ c :: l2 /\ ~ In c l2 /\
                 rfind_depuis c l i t = i + Z.of_nat (List.length l1)).
Proof.
  revert i t. induction l as [|x l IH]; intros i t; simpl.
  - left. split; auto.
  - destruct (IH (i + 1) (if Ascii.eqb x c then i else t))
      as [[Hn E]|(l1 & l2 & -> & Hn & E)].
    + destruct (Ascii.eqb_spec x c) as [->|Hx].
      * right. exists [], l. simpl. repeat split; auto. rewrite E. lia.
      * left. split; [|exact E]. intros [H|H]; auto.
    + right. exists (x :: l1), l2. simpl. repeat split; auto.
      rewrite E. lia.
Qed.

Lemma rfind_depuis_absent (c : ascii) (l : list ascii) (i t : Z) :
  ~ In c l -> rfind_depuis c l i t = t.
Proof.
  intros Hn. destruct (rfind_depuis_cas c l i t)
    as [[_ E]|(l1 & l2 & -> & _ & _)]; auto.
  exfalso. apply Hn. apply in_or_app. right. left. reflexivity.
Qed.

Lemma rfind_depuis_min (c : ascii) (l : list ascii) (i t : Z) :
  In c l -> i <= rfind_depuis c l i t.
Proof.
  intros Hin. destruct (rfind_depuis_cas c l i t)
    as [[Hn _]|(l1 & l2 & _ & _ & E)]; [contradiction|].
  rewrite E. lia.
Qed.

Lemma rfind_bornes (c : ascii) (l : list ascii) :
  -1 <= rfind c l < Z.of_nat (List.length l).
Proof.
  unfold rfind. destruct (rfind_depuis_cas c l 0 (-1))
    as [[_ E]|(l1 & l2 & -> & _ & E)]; rewrite E.
  - lia.
  - rewrite length_app. simpl. lia.
Qed.

Lemma string_of_list_ascii_app (l1 l2 : list ascii) :
  string_of_list_ascii (l1 ++ l2)
  = String.append (string_of_list_ascii l1) (string_of_list_ascii l2).
Proof. induction l1 as [|x l1 IH]; simpl; [|rewrite IH]; reflexivity. Qed.

Lemma append_vide (s : string) : String.append s EmptyString = s.
Proof. induction s as [|c s IH]; simpl; [|rewrite IH]; reflexivity. Qed.

Lemma In_skipn {A : Type} (n : nat) (l : list A) (x : A) :
  In x (skipn n l) -> In x l.
Proof.
  intros H. rewrite <- (firstn_skipn n l). apply in_or_app; right; exact H.
Qed.

(** X17. [splitext] cuts a name in two parts that put together give the
    name back; the extension is empty, or it is a dot followed by
    characters among which there is neither a dot nor a slash. *)
Theorem splitext_decoupe (p : string) :
  String.append (fst (splitext p)) (snd (splitext p)) = p /\
  (snd (splitext p) = EmptyString \/
   exists e, snd (splitext p) = String extsep e /\
             forall c, In c (list_ascii_of_string e) ->
                       c <> extsep /\ c <> sep).
Proof.
  unfold splitext.
  set (l := list_ascii_of_string p).
  destruct ((rfind sep l <? rfind extsep l)
            && existsb (fun c => negb (Ascii.eqb c extsep))
                       (tranche (rfind sep l + 1) (rfind extsep l) l)) eqn:C;
    simpl; [|split; [apply append_vide | left; reflexivity]].
  apply andb_prop in C as [Hlt _]. apply Z.ltb_lt in Hlt.
  pose proof (rfind_bornes sep l) as Hs.
  unfold tranche. rewrite Z.sub_0_r. simpl skipn.
  split.
  - rewrite <- string_of_list_ascii_app, firstn_skipn.
    apply string_of_list_ascii_of_string.
  - right.
    unfold rfind in Hlt |- *.
    destruct (rfind_depuis_cas extsep l 0 (-1))
      as [[_ E]|(l1 & l2 & El & Hn & E)].
    + rewrite E in Hlt. unfold rfind in Hs. lia.
    + rewrite E in *. simpl. rewrite Nat2Z.id.
      rewrite El, skipn_app, skipn_all, Nat.sub_diag. simpl.
      exists (string_of_list_ascii l2). split; auto.
      rewrite list_ascii_of_string_of_list_ascii.
      intros c Hc. split.
      * intros ->. contradiction.
      * intros ->.
        apply in_split in Hc as (a & b & ->).
        assert (Hmin : Z.of_nat (List.length (l1 ++ extsep :: a))
                       <= rfind_depuis sep l 0 (-1)).
        { rewrite El.
          replace (l1 ++ extsep :: a ++ sep :: b)
            with ((l1 ++ extsep :: a) ++ sep :: b)
            by (rewrite <- app_assoc; reflexivity).
          rewrite rfind_depuis_app. simpl Z.add.
          apply rfind_depuis_min. left. reflexivity. }
        rewrite length_app in Hmin. simpl in Hmin. lia.
Qed.
Lemma list_ascii_append (s1 s2 : string) :
  list_ascii_of_string (String.append s1 s2)
  = list_ascii_of_string s1 ++ list_ascii_of_string s2.
Proof. induction s1 as [|c s1 IH]; simpl; [|rewrite IH]; reflexivity. Qed.

(** The extension of a name that ends with a dot and a suffix free of dots
    and slashes, when the last component has more than dots before it. *)
Lemma splitext_suffixe (racine e : string) :
  (forall c, In c (list_ascii_of_string e) -> c <> extsep /\ c <> sep) ->
  existsb (fun c => negb (Ascii.eqb c extsep)) (dernier_composant racine)
  = true ->
  splitext (String.append racine (String extsep e))
  = (racine, String extsep e).
Proof.
  intros He Hr. unfold splitext.
  rewrite list_ascii_append. simpl list_ascii_of_string.
  set (lr := list_ascii_of_string racine) in *.
  set (le := list_ascii_of_string e) in *.
  assert (Hdot : rfind extsep (lr ++ extsep :: le) = Z.of_nat (List.length lr)).
  { unfold rfind. rewrite rfind_depuis_app. simpl.
    rewrite rfind_depuis_absent; [reflexivity|].
    intros Hin. apply (proj1 (He _ Hin)). reflexivity. }
  assert (Hsep : rfind sep (lr ++ extsep :: le) = rfind sep lr).
  { unfold rfind. rewrite rfind_depuis_app. simpl.
    apply rfind_depuis_absent.
    intros Hin. apply (proj2 (He _ Hin)). reflexivity. }
  pose proof (rfind_bornes sep lr) as Hb.
  rewrite Hdot, Hsep.
  assert (Hlt : (rfind sep lr <? Z.of_nat (List.length lr)) = true)
    by (apply Z.ltb_lt; lia).
  rewrite Hlt. simpl andb.
  assert (Htr : tranche (rfind sep lr + 1) (Z.of_nat (List.length lr))
                        (lr ++ extsep :: le)
                = skipn (Z.to_nat (rfind sep lr + 1)) lr).
  { unfold tranche. rewrite skipn_app.
    replace (Z.to_nat (rfind sep lr + 1) - List.length lr)%nat with 0%nat
      by lia.
    simpl skipn. rewrite firstn_app.
    replace (Z.to_nat (Z.of_nat (List.length lr) - (rfind sep lr + 1))
             - List.length (skipn (Z.to_nat (rfind sep lr + 1)) lr))%nat
      with 0%nat by (rewrite length_skipn; lia).
    simpl. rewrite app_nil_r. apply firstn_all2.
    rewrite length_skipn. lia. }
  rewrite Htr. unfold dernier_composant in Hr. fold lr in Hr. rewrite Hr.
  unfold tranche. rewrite Z.sub_0_r, Nat2Z.id. simpl skipn.
  rewrite firstn_app, firstn_all, Nat.sub_diag. simpl firstn.
  rewrite app_nil_r, skipn_app, skipn_all, Nat.sub_diag. simpl skipn.
  unfold lr. rewrite string_of_list_ascii_of_string.
  simpl. unfold le. rewrite string_of_list_ascii_of_string. reflexivity.
Qed.

Lemma splitext_sans_point (p : string) :
  ~ In extsep (list_ascii_of_string p) -> splitext p = (p, EmptyString).
Proof.
  intros Hn. unfold splitext.
  assert (Hd : rfind extsep (list_ascii_of_string p) = -1)
    by (apply rfind_depuis_absent; exact Hn).
  pose proof (rfind_bornes sep (list_ascii_of_string p)) as Hb.
  rewrite Hd.
  destruct (Z.ltb_spec (rfind sep (list_ascii_of_string p)) (-1)); [lia|].
  reflexivity.
Qed.

(** X18. [lire_fichier] reads a name by what follows its last dot, without
    regard to case: "xls" and "xlsx" go to the Excel reader, "csv" to the
    CSV reader, and anything else raises ValueError without calling a
    reader; so does a name without any dot. *)
Theorem lire_fichier_extension (fichier table : Type)
  (name : fichier -> string) (read_excel read_csv : fichier -> result table)
  (f : fichier) :
  (forall racine e,
     name f = String.append racine (String extsep e) ->
     (forall c, In c (list_ascii_of_string e) -> c <> extsep /\ c <> sep) ->
     existsb (fun c => negb (Ascii.eqb c extsep)) (dernier_composant racine)
     = true ->
     lire_fichier fichier table name read_excel read_csv f =
     if String.eqb (lower e) "xls" || String.eqb (lower e) "xlsx"
     then read_excel f
     else if String.eqb (lower e) "csv" then read_csv f
     else Raise ValueError) /\
  (~ In extsep (list_ascii_of_string (name f)) ->
   lire_fichier fichier table name read_excel read_csv f = Raise ValueError).
Proof.
  split.
  - intros racine e Hn He Hr. unfold lire_fichier.
    rewrite Hn, (splitext_suffixe racine e He Hr). reflexivity.
  - intros Hn. unfold lire_fichier.
    rewrite (splitext_sans_point _ Hn). reflexivity.
Qed.

(** The file "Onduleur 1.XLSX" goes to the Excel reader, and "mesures.xlsm"
    is refused. *)
Lemma lire_fichier_extension_witness :
  lire_fichier string nat (fun f => f) (fun _ => Ok 1%nat) (fun _ => Ok 2%nat)
    "Onduleur 1.XLSX"%string = Ok 1%nat /\
  lire_fichier string nat (fun f => f) (fun _ => Ok 1%nat) (fun _ => Ok 2%nat)
    "mesures.xlsm"%string = Raise ValueError.
Proof.
  split.
  - apply (proj1 (lire_fichier_extension string nat (fun f => f)
                    (fun _ => Ok 1%nat) (fun _ => Ok 2%nat) "Onduleur 1.XLSX"%string)
             "Onduleur 1"%string "XLSX"%string).
    + reflexivity.
    + intros c Hc. simpl in Hc.
      repeat (destruct Hc as [<-|Hc]; [split; discriminate|]). contradiction.
    + reflexivity.
  - apply (proj1 (lire_fichier_extension string nat (fun f => f)
                    (fun _ => Ok 1%nat) (fun _ => Ok 2%nat) "mesures.xlsm"%string)
             "mesures"%string "xlsm"%string).
    + reflexivity.
    + intros c Hc. simpl in Hc.
      repeat (destruct Hc as [<-|Hc]; [split; discriminate|]). contradiction.
    + reflexivity.
Defined.

(* ------------------------------------------------------------------ *)
(** ** Validation of the uploaded files *)

Section ValidationProprietes.

Variables fichier table : Type.
Variable lire : fichier -> result table.
Variable nb_colonnes : table -> nat.
Variable nb_lignes : table -> nat.

Lemma verifier_onduleur_coherent
  (onduleurs caracteristiques : list (option fichier)) (i : nat) :
  snd (verifier_onduleur fichier table lire nb_colonnes nb_lignes
         onduleurs caracteristiques i) = false <->
  onduleur_coherent fichier table lire nb_colonnes nb_lignes
    onduleurs caracteristiques i.
Proof.
  unfold verifier_onduleur, onduleur_coherent, indexer, lire_option.
  destruct (nth_error onduleurs i) as [[f_o|]|]; simpl;
    try (split; [discriminate | intros (? & ? & ? & ? & H & _); discriminate]).
  destruct (lire f_o) as [df_o|e] eqn:Eo; simpl;
    try (split; [discriminate
                | intros (? & ? & ? & ? & H & _ & H' & _);
                  injection H as <-; congruence]).
  destruct (nth_error caracteristiques i) as [[f_c|]|]; simpl;
    try (split; [discriminate
                | intros (? & ? & ? & ? & _ & H & _); discriminate]).
  destruct (lire f_c) as [df_c|e] eqn:Ec; simpl;
    try (split; [discriminate
                | intros (? & ? & ? & ? & _ & H & _ & H' & _);
                  injection H as <-; congruence]).
  destruct (Z.eqb_spec (Z.of_nat (nb_colonnes df_o) - 2)
                       (Z.of_nat (nb_lignes df_c))) as [E|E]; simpl.
  - split; auto. intros _. exists f_o, f_c, df_o, df_c. auto.
  - split; [discriminate|].
    intros (f_o' & f_c' & df_o' & df_c' & H1 & H2 & H3 & H4 & H5).
    injection H1 as <-. injection H2 as <-.
    rewrite Eo in H3. rewrite Ec in H4.
    injection H3 as <-. injection H4 as <-. contradiction.
Qed.

Lemma boucle_coherence_spec
  (onduleurs caracteristiques : list (option fichier))
  (indices : list nat) (coherence_valide : bool) :
  snd (boucle_coherence fichier table lire nb_colonnes nb_lignes
         onduleurs caracteristiques indices coherence_valide) = true <->
  coherence_valide = true /\
  forall i, In i indices ->
    onduleur_coherent fichier table lire nb_colonnes nb_lignes
      onduleurs caracteristiques i.
Proof.
  revert coherence_valide.
  induction indices as [|i reste IH]; intros b; simpl.
  - split; [intros H; split; auto; intros i []|tauto].
  - rewrite IH.
    pose proof (verifier_onduleur_coherent onduleurs caracteristiques i) as Hv.
    destruct (snd (verifier_onduleur fichier table lire nb_colonnes nb_lignes
                     onduleurs caracteristiques i)).
    + split; [intros [H _]; discriminate|].
      intros [_ H]. exfalso.
      assert (Hc := H i (or_introl eq_refl)).
      apply Hv in Hc. discriminate.
    + split.
      * intros [Hb H]. split; auto. intros j [<-|Hj]; auto.
        apply Hv. reflexivity.
      * intros [Hb H]. split; auto.
Qed.

Lemma boucle_coherence_sans_succes
  (onduleurs caracteristiques : list (option fichier))
  (indices : list nat) (coherence_valide : bool) :
  ~ In Succes (fst (boucle_coherence fichier table lire nb_colonnes nb_lignes
                      onduleurs caracteristiques indices coherence_valide)).
Proof.
  revert coherence_valide.
  induction indices as [|i reste IH]; intros b; simpl; auto.
  intros H. apply in_app_or in H as [H|H]; [|apply (IH _ H)].
  unfold verifier_onduleur in H.
  destruct (f_onduleur <- indexer onduleurs i;;
            df_onduleur <- lire_option fichier table lire f_onduleur;;
            f_carac <- indexer caracteristiques i;;
            df_carac <- lire_option fichier table lire f_carac;;
            Ok (df_onduleur, df_carac)) as [dfs|e]; simpl in H.
  - destruct (Z.of_nat (nb_colonnes (fst dfs)) - 2
              =? Z.of_nat (nb_lignes (snd dfs))); simpl in H;
      [contradiction|destruct H as [H|[]]; discriminate].
  - destruct H as [H|[]]; discriminate.
Qed.

End ValidationProprietes.

(** X19. When a file is missing (one of the inverter files, the
    irradiance file, or one of the characteristics files), the validation
    displays the matching message, alone, and then stops on NameError:
    the script reads [coherence_valide], which no branch has bound. *)
Theorem valider_fichier_manquant (fichier table : Type)
  (lire : fichier -> result table) (nb_colonnes nb_lignes : table -> nat)
  (nb_onduleurs : nat) (onduleurs caracteristiques : list (option fichier))
  (irradiance : option fichier) :
  In None onduleurs \/ irradiance = None \/ In None caracteristiques ->
  exists message,
    valider fichier table lire nb_colonnes nb_lignes nb_onduleurs
      onduleurs caracteristiques irradiance = ([message], NameError) /\
    (message = OnduleursManquants \/ message = IrradianceManquante \/
     message = CaracteristiquesManquantes).
Proof.
  intros H. unfold valider, branches.
  destruct (existsb est_none onduleurs) eqn:E1; simpl; [eauto|].
  destruct irradiance as [f|]; simpl; [|eauto].
  destruct (existsb est_none caracteristiques) eqn:E2; simpl; [eauto 6|].
  exfalso. destruct H as [H|[H|H]]; [|discriminate|].
  - assert (Ht : existsb est_none onduleurs = true)
      by (apply existsb_exists; exists None; auto).
    congruence.
  - assert (Ht : existsb est_none caracteristiques = true)
      by (apply existsb_exists; exists None; auto).
    congruence.
Qed.

(** One inverter, its power file uploaded, the rest missing. *)
Lemma valider_fichier_manquant_witness :
  exists message,
    valider nat nat (fun f => Ok f) (fun t => t) (fun t => t) 1
      [Some 5%nat] [None] None = ([message], NameError) /\
    (message = OnduleursManquants \/ message = IrradianceManquante \/
     message = CaracteristiquesManquantes).
Proof.
  apply valider_fichier_manquant. right. left. reflexivity.
Defined.

(** X20. When no file is missing, the validation runs to its end; it
    displays the success message, once and last, exactly when for every
    declared inverter both files are there, both are read without
    exception, and the power file has two columns more than the
    characteristics file has rows. *)
Theorem valider_coherence (fichier table : Type)
  (lire : fichier -> result table) (nb_colonnes nb_lignes : table -> nat)
  (nb_onduleurs : nat) (onduleurs caracteristiques : list (option fichier))
  (irradiance : option fichier) :
  ~ In None onduleurs -> irradiance <> None -> ~ In None caracteristiques ->
  exists messages,
    ~ In Succes messages /\
    ((forall i, (i < nb_onduleurs)%nat ->
        onduleur_coherent fichier table lire nb_colonnes nb_lignes
          onduleurs caracteristiques i) ->
     valider fichier table lire nb_colonnes nb_lignes nb_onduleurs
       onduleurs caracteristiques irradiance
     = (messages ++ [Succes], Termine)) /\
    (~ (forall i, (i < nb_onduleurs)%nat ->
          onduleur_coherent fichier table lire nb_colonnes nb_lignes
            onduleurs caracteristiques i) ->
     valider fichier table lire nb_colonnes nb_lignes nb_onduleurs
       onduleurs caracteristiques irradiance
     = (messages, Termine)).
Proof.
  intros Ho Hi Hc. unfold valider, branches.
  assert (E1 : existsb est_none onduleurs = false).
  { apply not_true_is_false. intros H.
    apply existsb_exists in H as ([f|] & Hin & Hn); [discriminate|auto]. }
  assert (E2 : existsb est_none caracteristiques = false).
  { apply not_true_is_false. intros H.
    apply existsb_exists in H as ([f|] & Hin & Hn); [discriminate|auto]. }
  rewrite E1, E2.
  destruct irradiance as [f|]; [|contradiction Hi; reflexivity]. simpl.
  set (b := boucle_coherence fichier table lire nb_colonnes nb_lignes
              onduleurs caracteristiques (seq 0 nb_onduleurs) true).
  exists (fst b). split; [apply boucle_coherence_sans_succes|].
  pose proof (boucle_coherence_spec fichier table lire nb_colonnes nb_lignes
                onduleurs caracteristiques (seq 0 nb_onduleurs) true) as Hs.
  fold b in Hs.
  split.
  - intros Hall.
    assert (Hb : snd b = true).
    { apply Hs. split; auto. intros i Hin. apply Hall.
      apply in_seq in Hin. lia. }
    rewrite Hb. reflexivity.
  - intros Hnot.
    destruct (snd b) eqn:Hb.
    + exfalso. apply Hnot. intros i Hlt.
      apply (proj2 (proj1 Hs eq_refl)). apply in_seq. lia.
    + rewrite app_nil_r. reflexivity.
Qed.

(** One inverter whose power file has 5 columns and whose characteristics
    file has 3 rows. *)
Lemma valider_coherence_witness :
  exists messages,
    ~ In Succes messages /\
    valider nat nat (fun f => Ok f) (fun t => t) (fun t => t) 1
      [Some 5%nat] [Some 3%nat] (Some 0%nat)
    = (messages ++ [Succes], Termine).
Proof.
  destruct (valider_coherence nat nat (fun f => Ok f) (fun t => t)
              (fun t => t) 1 [Some 5%nat] [Some 3%nat] (Some 0%nat))
    as (messages & Hm & Hok & _).
  - simpl. intros [H|[]]. discriminate.
  - discriminate.
  - simpl. intros [H|[]]. discriminate.
  - exists messages. split; [exact Hm|]. apply Hok.
    intros i Hi. assert (i = 0%nat) by lia. subst i.
    exists 5%nat, 3%nat, 5%nat, 3%nat. repeat split.
Defined.

(* ------------------------------------------------------------------ *)
(** ** The report *)

Lemma sections_app (d1 d2 : list bloc) :
  sections (d1 ++ d2) = sections d1 ++ sections d2.
Proof. unfold sections. apply flat_map_app. Qed.

Lemma sections_centrer (i : nat) (doc : list bloc) :
  sections (centrer i doc) = sections doc.
Proof.
  unfold sections.
  revert i. induction doc as [|b doc IH]; intros i; [destruct i; reflexivity|].
  destruct i as [|i]; destruct b; simpl; rewrite ?IH; reflexivity.
Qed.

Section RapportProprietes.

Variable existe : string -> bool.

Lemma add_picture_fait (b : bloc) (chemin : string) (doc doc' : list bloc) :
  add_picture existe b chemin doc = Fait doc' -> doc' = doc ++ [b].
Proof.
  unfold add_picture. destruct (existe chemin); [|discriminate].
  intros H; injection H as <-; reflexivity.
Qed.

Lemma add_picture_leve (b : bloc) (chemin : string) (doc : list bloc)
  (e : exn_doc) :
  add_picture existe b chemin doc = Leve e -> e = FileNotFoundError.
Proof.
  unfold add_picture. destruct (existe chemin); [discriminate|].
  intros H; injection H as <-; reflexivity.
Qed.

Lemma section_logo_cas (logo_path : option string) (doc : list bloc) :
  (exists doc', section_logo existe logo_path doc = Fait doc' /\
                sections doc' = sections doc) \/
  section_logo existe logo_path doc = Leve FileNotFoundError.
Proof.
  unfold section_logo, add_picture.
  destruct logo_path as [[|c s]|]; eauto.
  destruct (existe (String c s)); eauto.
  left. eexists. split; [reflexivity|].
  rewrite sections_app. simpl. apply app_nil_r.
Qed.

Lemma section_ratio_cas (inclure_ratio : bool) (img : string)
  (doc : list bloc) :
  (exists doc', section_ratio existe inclure_ratio img doc = Fait doc' /\
                sections doc'
                = sections doc ++ (if inclure_ratio then [SRatio] else [])) \/
  section_ratio existe inclure_ratio img doc = Leve FileNotFoundError.
Proof.
  unfold section_ratio, add_picture.
  destruct inclure_ratio.
  - destruct (existe img); eauto.
    left. eexists. split; [reflexivity|].
    rewrite !sections_app. simpl. rewrite app_nil_r. reflexivity.
  - left. eexists. split; [reflexivity|]. rewrite app_nil_r. reflexivity.
Qed.

Lemma section_classement_sections (inclure_classement : bool)
  (top3_df flop3_df : list ligne_resultat) (doc : list bloc) :
  sections (fst (section_classement inclure_classement top3_df flop3_df doc))
  = sections doc ++ (if inclure_classement then [SClassement] else []) /\
  (snd (section_classement inclure_classement top3_df flop3_df doc) = None
   <-> inclure_classement = false).
Proof.
  unfold section_classement. destruct inclure_classement; simpl.
  - split; [|split; discriminate].
    rewrite !sections_app. simpl. rewrite app_nil_r. reflexivity.
  - split; [rewrite app_nil_r; reflexivity | tauto].
Qed.

Lemma section_suspects_cas (inclure : bool) (df_alertes : list alerte)
  (table_flop : option nat) (doc : list bloc) :
  (exists doc', section_suspects inclure df_alertes table_flop doc = Fait doc'
                /\ sections doc'
                   = sections doc ++ (if inclure then [SSuspects] else [])) \/
  (section_suspects inclure df_alertes table_flop doc = Leve UnboundLocalError
   /\ inclure = true /\ df_alertes <> [] /\ table_flop = None).
Proof.
  unfold section_suspects. destruct inclure.
  - destruct df_alertes as [|a l]; simpl.
    + left. eexists. split; [reflexivity|].
      rewrite !sections_app. simpl. rewrite app_nil_r. reflexivity.
    + destruct table_flop as [i|].
      * left. eexists. split; [reflexivity|].
        rewrite !sections_app, sections_centrer, sections_app. simpl.
        rewrite app_nil_r. reflexivity.
      * right. repeat split; auto. discriminate.
  - left. eexists. split; [reflexivity|]. rewrite app_nil_r. reflexivity.
Qed.

Lemma section_evolution_cas (inclure : bool) (img : string)
  (doc : list bloc) :
  (exists doc', section_evolution existe inclure img doc = Fait doc' /\
                sections doc'
                = sections doc ++ (if inclure then [SEvolution] else [])) \/
  section_evolution existe inclure img doc = Leve FileNotFoundError.
Proof.
  unfold section_evolution, add_picture.
  destruct inclure.
  - destruct (existe img); eauto.
    left. eexists. split; [reflexivity|].
    rewrite !sections_app. simpl. rewrite app_nil_r. reflexivity.
  - left. eexists. split; [reflexivity|]. rewrite app_nil_r. reflexivity.
Qed.

End RapportProprietes.

(** X21. The report generator raises UnboundLocalError only when the
    alert section is asked for, there are alerts, and the ranking section
    is left out; and with these choices it always does, once the images
    written before that point have been opened. *)
Theorem generer_word_unbound (existe : string -> bool) (site : string)
  (onduleur : Z) (date_debut date_fin img_barres : string)
  (top3_df flop3_df : list ligne_resultat) (df_alertes : list alerte)
  (img_evolution : string)
  (inclure_ratio inclure_classement inclure_analyse_suspect
     inclure_evolution : bool)
  (logo_path : option string) :
  (generer_word existe site onduleur date_debut date_fin img_barres
     top3_df flop3_df df_alertes img_evolution inclure_ratio
     inclure_classement inclure_analyse_suspect inclure_evolution logo_path
   = Leve UnboundLocalError ->
   inclure_analyse_suspect = true /\ df_alertes <> [] /\
   inclure_classement = false) /\
  (inclure_analyse_suspect = true -> df_alertes <> [] ->
   inclure_classement = false ->
   (forall chemin, logo_path = Some chemin -> existe chemin = true) ->
   (inclure_ratio = true -> existe img_barres = true) ->
   generer_word existe site onduleur date_debut date_fin img_barres
     top3_df flop3_df df_alertes img_evolution inclure_ratio
     inclure_classement inclure_analyse_suspect inclure_evolution logo_path
   = Leve UnboundLocalError).
Proof.
  unfold generer_word. split.
  - destruct (section_logo_cas existe logo_path []) as [(d1 & -> & _)| ->];
      simpl; [|discriminate].
    match goal with
    | |- context [section_ratio existe inclure_ratio img_barres ?d] =>
        destruct (section_ratio_cas existe inclure_ratio img_barres d)
          as [(d2 & -> & _)| ->]
    end; simpl; [|discriminate].
    pose proof (section_classement_sections inclure_classement top3_df
                  flop3_df d2) as [_ Hc].
    destruct (section_suspects_cas inclure_analyse_suspect df_alertes
                (snd (section_classement inclure_classement top3_df flop3_df d2))
                (fst (section_classement inclure_classement top3_df flop3_df d2)))
      as [(d3 & -> & _)|(-> & H1 & H2 & H3)]; simpl.
    + destruct (section_evolution_cas existe inclure_evolution img_evolution d3)
        as [(d4 & -> & _)| ->]; discriminate.
    + intros _. repeat split; auto. apply Hc; exact H3.
  - intros -> Hne -> Hlogo Hbarres.
    assert (H1 : exists d1, section_logo existe logo_path [] = Fait d1).
    { unfold section_logo, add_picture.
      destruct logo_path as [[|c s]|]; eauto.
      rewrite (Hlogo _ eq_refl). eauto. }
    destruct H1 as (d1 & ->). simpl.
    match goal with
    | |- context [section_ratio existe inclure_ratio img_barres ?d] =>
        assert (H2 : exists d2,
                   section_ratio existe inclure_ratio img_barres d = Fait d2)
    end.
    { unfold section_ratio, add_picture. destruct inclure_ratio; eauto.
      rewrite (Hbarres eq_refl). eauto. }
    destruct H2 as (d2 & ->). simpl.
    destruct df_alertes; [contradiction Hne; reflexivity|]. reflexivity.
Qed.

(** No logo, no ratio section, no ranking section, one alert. *)
Lemma generer_word_unbound_witness :
  generer_word (fun _ => false) "Site" 1 "2025-07-01" "2025-07-31" "b.png"
    [] []
    [{| a_string := 3; a_ecart := Fmt2f (Fin 75.61); a_message := Anormal |}]
    "e.png" false false true false None
  = Leve UnboundLocalError.
Proof.
  apply (proj2 (generer_word_unbound (fun _ => false) "Site" 1 "2025-07-01"
                  "2025-07-31" "b.png" [] []
                  [{| a_string := 3; a_ecart := Fmt2f (Fin 75.61);
                      a_message := Anormal |}]
                  "e.png" false false true false None)).
  - reflexivity.
  - discriminate.
  - reflexivity.
  - discriminate.
  - discriminate.
Defined.

(** X22. A report that is produced holds the sections that were asked
    for and no other, in the order ratio, ranking, alerts, monthly
    evolution. *)
Theorem generer_word_sections (existe : string -> bool) (site : string)
  (onduleur : Z) (date_debut date_fin img_barres : string)
  (top3_df flop3_df : list ligne_resultat) (df_alertes : list alerte)
  (img_evolution : string)
  (inclure_ratio inclure_classement inclure_analyse_suspect
     inclure_evolution : bool)
  (logo_path : option string) (doc : list bloc) :
  generer_word existe site onduleur date_debut date_fin img_barres
    top3_df flop3_df df_alertes img_evolution inclure_ratio
    inclure_classement inclure_analyse_suspect inclure_evolution logo_path
  = Fait doc ->
  sections doc =
  (if inclure_ratio then [SRatio] else []) ++
  (if inclure_classement then [SClassement] else []) ++
  (if inclure_analyse_suspect then [SSuspects] else []) ++
  (if inclure_evolution then [SEvolution] else []).
Proof.
  unfold generer_word.
  destruct (section_logo_cas existe logo_path []) as [(d1 & -> & S1)| ->];
    simpl; [|discriminate].
  match goal with
  | |- context [section_ratio existe inclure_ratio img_barres ?d] =>
      destruct (section_ratio_cas existe inclure_ratio img_barres d)
        as [(d2 & -> & S2)| ->]
  end; simpl; [|discriminate].
  pose proof (section_classement_sections inclure_classement top3_df
                flop3_df d2) as [S3 _].
  destruct (section_suspects_cas inclure_analyse_suspect df_alertes
              (snd (section_classement inclure_classement top3_df flop3_df d2))
              (fst (section_classement inclure_classement top3_df flop3_df d2)))
    as [(d3 & -> & S4)|(-> & _)]; simpl; [|discriminate].
  destruct (section_evolution_cas existe inclure_evolution img_evolution d3)
    as [(d4 & -> & S5)| ->]; [|discriminate].
  intros H; injection H as <-.
  rewrite S5, S4, S3, S2, sections_app, S1. simpl.
  rewrite <- !app_assoc. reflexivity.
Qed.

(** All four sections, one alert, every image readable. *)
Lemma generer_word_sections_witness :
  exists doc,
    generer_word (fun _ => true) "Site" 1 "2025-07-01" "2025-07-31" "b.png"
      (top3 df_quatre) (flop3 df_quatre)
      [{| a_string := 3; a_ecart := Fmt2f (Fin 75.61); a_message := Anormal |}]
      "e.png" true true true true (Some "logo_NEA.png"%string)
    = Fait doc /\
    sections doc = [SRatio; SClassement; SSuspects; SEvolution].
Proof.
  eexists. split; [reflexivity|].
  apply (generer_word_sections (fun _ => true) "Site" 1 "2025-07-01"
           "2025-07-31" "b.png" (top3 df_quatre) (flop3 df_quatre)
           [{| a_string := 3; a_ecart := Fmt2f (Fin 75.61);
               a_message := Anormal |}]
           "e.png" true true true true (Some "logo_NEA.png"%string)).
  reflexivity.
Defined.

(* ------------------------------------------------------------------ *)
(** ** Monthly ratios add up *)

Lemma fdiv_fadd_distr (a b : float) (q : Q) :
  Qeq_bool q 0 = false ->
  float_eq (fdiv (fadd a b) (Fin q)) (fadd (fdiv a (Fin q)) (fdiv b (Fin q))).
Proof.
  intros Hq.
  assert (Hn : ~ (q == 0)%Q).
  { intros H. apply Qeq_bool_iff in H. congruence. }
  destruct a as [x| | |], b as [y| | |]; simpl; rewrite ?Hq;
    try (destruct (Qcompare q 0); simpl; exact I).
  simpl. field. exact Hn.
Qed.

Lemma fdiv_somme (l : list float) (q : Q) :
  Qeq_bool q 0 = false ->
  float_eq (fdiv (somme l) (Fin q)) (somme (map (fun x => fdiv x (Fin q)) l)).
Proof.
  intros Hq.
  assert (Hn : ~ (q == 0)%Q).
  { intros H. apply Qeq_bool_iff in H. congruence. }
  induction l as [|x l IH].
  - simpl. rewrite Hq. simpl. field. exact Hn.
  - simpl map. rewrite (somme_cons (fdiv x (Fin q))).
    rewrite (fdiv_proper_l _ _ (Fin q) (somme_cons x l)).
    rewrite fdiv_fadd_distr by exact Hq.
    apply fadd_proper; [reflexivity | exact IH].
Qed.

Lemma filter_concat {A : Type} (p : A -> bool) (frames : list (list A)) :
  filter p (concat frames) = concat (map (filter p) frames).
Proof.
  induction frames as [|f frames IH]; simpl; auto.
  rewrite filter_app, IH. reflexivity.
Qed.

(** In the frames of the loop, the rows of string [j+1] are those of its
    own frame. *)
Lemma ratios_string_filter (mensuel : list (Z * list float))
  (df_carac : list ligne_carac) (j : nat) (js : list nat) :
  NoDup js -> In j js ->
  concat (map (filter (fun lm => m_string lm =? Z.of_nat (S j)))
              (flat_map (ratios_string mensuel df_carac) js))
  = concat (ratios_string mensuel df_carac j).
Proof.
  assert (Hautre : forall j', j' <> j ->
            concat (map (filter (fun lm => m_string lm =? Z.of_nat (S j)))
                        (ratios_string mensuel df_carac j')) = []).
  { intros j' Hj'. unfold ratios_string.
    destruct (filter (fun c => c_string c =? Z.of_nat (S j')) df_carac);
      cbn [map concat app]; auto.
    rewrite app_nil_r. apply filter_nil. intros lm Hlm.
    apply in_map_iff in Hlm as (row & <- & _). cbn [m_string].
    apply Z.eqb_neq. lia. }
  assert (Hmeme :
            concat (map (filter (fun lm => m_string lm =? Z.of_nat (S j)))
                        (ratios_string mensuel df_carac j))
            = concat (ratios_string mensuel df_carac j)).
  { unfold ratios_string.
    destruct (filter (fun c => c_string c =? Z.of_nat (S j)) df_carac);
      cbn [map concat app]; auto.
    rewrite !app_nil_r. apply filter_tout. intros lm Hlm.
    apply in_map_iff in Hlm as (row & <- & _). cbn [m_string].
    apply Z.eqb_refl. }
  induction js as [|j' js IH]; intros Hnd Hin; [contradiction|].
  inversion Hnd as [|? ? Hnotin Hnd']; subst.
  cbn [flat_map]. rewrite map_app, concat_app.
  destruct Hin as [->|Hin].
  - rewrite Hmeme.
    assert (Hreste :
              concat (map (filter (fun lm => m_string lm =? Z.of_nat (S j)))
                          (flat_map (ratios_string mensuel df_carac) js)) = []).
    { clear IH Hnd Hnd'. induction js as [|k js IHk]; cbn [flat_map]; auto.
      rewrite map_app, concat_app, Hautre, IHk; auto.
      - intros H; apply Hnotin; right; exact H.
      - intros ->. apply Hnotin. left. reflexivity. }
    rewrite Hreste, app_nil_r. reflexivity.
  - rewrite Hautre by (intros ->; contradiction).
    cbn [app]. apply IH; auto.
Qed.

(** X23. For a string whose first characteristics row gives a finite
    capacity other than zero, the ratios of its rows in the monthly table
    add up to its energy over the period divided by that capacity (exact
    arithmetic). *)
Theorem ratios_mensuels_somme (to_period_M : Z -> Z) (nb_strings : nat)
  (df : list ligne_puissance) (df_carac : list ligne_carac) (j : nat)
  (c : ligne_carac) (reste : list ligne_carac) (q : Q)
  (table : list ligne_mensuelle) :
  (j < nb_strings)%nat ->
  filter (fun c => c_string c =? Z.of_nat (S j)) df_carac = c :: reste ->
  puissance_installee c = Fin q -> Qeq_bool q 0 = false ->
  df_ratios to_period_M nb_strings df df_carac = Ok table ->
  float_eq
    (somme (map m_ratio
              (filter (fun lm => m_string lm =? Z.of_nat (S j)) table)))
    (fdiv (energie_string j df) (Fin q)).
Proof.
  intros Hj Hf Hcap Hq Ht.
  unfold df_ratios, pd_concat, ratios_mensuels in Ht.
  assert (Et : table
               = concat (flat_map
                           (ratios_string (df_mensuel to_period_M nb_strings df)
                              df_carac) (seq 0 nb_strings))).
  { destruct (flat_map (ratios_string (df_mensuel to_period_M nb_strings df)
                          df_carac) (seq 0 nb_strings));
      [discriminate|]. injection Ht as <-. reflexivity. }
  subst table.
  rewrite filter_concat, ratios_string_filter;
    [|apply seq_NoDup|apply in_seq; lia].
  unfold ratios_string. rewrite Hf. simpl concat. rewrite app_nil_r.
  rewrite map_map. simpl. rewrite Hcap.
  rewrite <- (map_map (fun row => nth j (snd row) NaN)
                      (fun x => fdiv x (Fin q))).
  rewrite <- fdiv_somme by exact Hq.
  apply fdiv_proper_l. apply df_mensuel_somme_string; exact Hj.
Qed.

(** One string over the two sample days, two panels of unit power 1. *)
Lemma ratios_mensuels_somme_witness :
  float_eq
    (somme (map m_ratio
              (filter (fun lm => m_string lm =? 1)
                 [{| m_year_month := 0;
                     m_energie := energie_string 0 (en_kW puissance_deux_jours);
                     m_ratio := fdiv (energie_string 0
                                        (en_kW puissance_deux_jours))
                                     (puissance_installee (carac 1 2 1));
                     m_string := 1 |}])))
    (fdiv (energie_string 0 (en_kW puissance_deux_jours)) (Fin (2 * 1))).
Proof.
  apply (ratios_mensuels_somme mois_trente_jours 1
           (en_kW puissance_deux_jours) [carac 1 2 1] 0 (carac 1 2 1) []
           (2 * 1)%Q).
  - lia.
  - reflexivity.
  - reflexivity.
  - reflexivity.
  - reflexivity.
Defined.

(* ------------------------------------------------------------------ *)
(** ** Who the peers of a string are *)


